(** * Seam carving: the solver, the remover and the driver of seam_carving.cpp

    A shallow embedding of [findSeam], [removeSeam] and [seamCarving] and of
    the OpenCV matrix operations they use, followed by the properties of the
    specification that concern them.

    Conventions of the embedding.
    - A C++ [int] is a [Z]; every index of the program stays far from the
      limits of a 32-bit integer, so no wrap-around is written out.
    - A [cv::Mat] is a record of its [rows] and [cols] fields and of its
      elements, one list per row.  [Mat::at] and [Mat::ptr] do not check
      their indices in a release build: an access that breaks their
      precondition is undefined behaviour, which the embedding reports as
      [Undefined] instead of guessing a value.
    - The samples of the energy field are [double]s.  The solver only adds
      them and compares them with [<]; the embedding keeps their type [E]
      abstract, with an addition [add] and a comparison [ltb].  The properties
      that depend on the order assume that [ltb] is a strict weak order and
      that [add] is monotone, which holds of IEEE doubles without NaN (rounding
      is monotone) and of the integers.  The fields that [computeEnergy]
      produces hold integers: sums of absolute Sobel responses of 8-bit
      samples.
    - A freshly allocated matrix is not initialised; its contents are a
      parameter [junk] of the function that allocates it. *)

From Stdlib Require Import ZArith Lia.
From Stdlib Require Strings.Byte.
From Stdlib Require Import Ascii.
From stdpp Require Import base tactics option list numbers strings.

#[local] Open Scope Z_scope.

(** ** Outcomes *)

(** The error kinds that the specification names, and the exception that an
    OpenCV assertion throws.  The source has no statement that raises one of
    the first three. *)
Inductive error : Type :=
  | InvalidDimensions
  | TooManySeams (n w : Z)
  | InvalidSeam
  | CvException.

(** What a call does: it returns a value, it raises an error, or it runs into
    undefined behaviour (an access outside a vector or a matrix). *)
Inductive outcome (A : Type) : Type :=
  | Ok (a : A)
  | Raise (e : error)
  | Undefined.

Arguments Ok {A} a.
Arguments Raise {A} e.
Arguments Undefined {A}.

#[global] Instance outcome_ret : MRet outcome := fun A => @Ok A.

#[global] Instance outcome_bind : MBind outcome := fun A B f m =>
  match m with
  | Ok a => f a
  | Raise e => Raise e
  | Undefined => Undefined
  end.

(** ** Vectors and matrices *)

(** [v[i]] of a [std::vector], read and written. *)
Definition vec_at {A} (v : list A) (i : Z) : outcome A :=
  if decide (0 ≤ i) then
    match v !! Z.to_nat i with Some x => Ok x | None => Undefined end
  else Undefined.

Definition vec_set {A} (v : list A) (i : Z) (x : A) : outcome (list A) :=
  if decide (0 ≤ i < Z.of_nat (length v)) then Ok (<[Z.to_nat i := x]> v)
  else Undefined.

Record Mat (A : Type) : Type := mkMat {
  rows : Z;
  cols : Z;
  data : list (list A)
}.

Arguments mkMat {A} rows cols data.
Arguments rows {A} m.
Arguments cols {A} m.
Arguments data {A} m.

(** A matrix whose element lists agree with its header. *)
Definition shape {A} (m : Mat A) (H W : Z) : Prop :=
  rows m = H ∧ cols m = W ∧ 0 ≤ W ∧ Z.of_nat (length (data m)) = H ∧
  Forall (fun r => Z.of_nat (length r) = W) (data m).

#[global] Instance shape_dec {A} (m : Mat A) H W : Decision (shape m H W).
Proof. unfold shape. apply _. Defined.

(** [m.ptr<T>(i)]: the row [i].  [ptr(0)] is allowed on a matrix without
    rows, where it is the null pointer: a row of no element. *)
Definition mat_ptr {A} (m : Mat A) (i : Z) : outcome (list A) :=
  match data m with
  | [] => if decide (i = 0) then Ok [] else Undefined
  | _ => vec_at (data m) i
  end.

(** The [n] elements of the range [[first, first + n)]. *)
Definition vec_range {A} (first : list A) (n : Z) : outcome (list A) :=
  if decide (0 ≤ n ≤ Z.of_nat (length first)) then
    Ok (take (Z.to_nat n) first)
  else Undefined.

(** [m.at<T>(i, j)], read. *)
Definition mat_at {A} (m : Mat A) (i j : Z) : outcome A :=
  r ← mat_ptr m i; vec_at r j.

(** [m.at<T>(i, j) = x]. *)
Definition mat_set {A} (m : Mat A) (i j : Z) (x : A) : outcome (Mat A) :=
  r ← mat_ptr m i;
  r' ← vec_set r j x;
  d ← vec_set (data m) i r';
  Ok (mkMat (rows m) (cols m) d).

(** [m.clone()]: a deep copy.  [Mat::copyTo] releases its destination when
    the source has no element: the copy is then the 0×0 matrix. *)
Definition clone {A} (m : Mat A) : Mat A :=
  if decide (rows m = 0 ∨ cols m = 0) then mkMat 0 0 []
  else mkMat (rows m) (cols m) (data m).

(** [Mat m(r, c, type)]: a fresh matrix.  Its elements are not initialised;
    [fill] stands for whatever the allocation holds.  [Mat::create] asserts
    that no dimension is negative. *)
Definition mat_create {A} (fill : Z → Z → A) (r c : Z) : outcome (Mat A) :=
  if decide (0 ≤ r ∧ 0 ≤ c) then
    Ok (mkMat r c ((fun i => fill i <$> seqZ 0 c) <$> seqZ 0 r))
  else Raise CvException.

(** ** Counted loops *)

Section Loops.
Context {S : Type}.

Fixpoint iter_up (n : nat) (i : Z) (body : Z → S → outcome S) (s : S)
  : outcome S :=
  match n with
  | O => Ok s
  | Datatypes.S n' => s' ← body i s; iter_up n' (i + 1) body s'
  end.

Fixpoint iter_down (n : nat) (i : Z) (body : Z → S → outcome S) (s : S)
  : outcome S :=
  match n with
  | O => Ok s
  | Datatypes.S n' => s' ← body i s; iter_down n' (i - 1) body s'
  end.

(** [for (int i = lo; i < hi; i++) body] *)
Definition for_range (lo hi : Z) (body : Z → S → outcome S) (s : S)
  : outcome S :=
  iter_up (Z.to_nat (hi - lo)) lo body s.

(** [for (int i = hi; i >= lo; i--) body] *)
Definition for_down (hi lo : Z) (body : Z → S → outcome S) (s : S)
  : outcome S :=
  iter_down (Z.to_nat (hi - lo + 1)) hi body s.

End Loops.

(** ** SeamSolver: [findSeam] *)

Section SeamSolver.
Context {E : Type}.
Variable add : E → E → E.
Variable ltb : E → E → bool.
(** The contents of the freshly allocated [backtrack] matrix. *)
Variable junk : Z → Z → Z.

(** The three conditionals of the inner loop body: the cheapest predecessor of
    the cell [(i, j)] and its column offset.  [&&] evaluates its right operand
    only when the left one holds. *)
Definition dp_cell (cost : Mat E) (cols i j : Z) : outcome (E * Z) :=
  c ← mat_at cost (i - 1) j;
  let st := (c, 0) in
  st ← (if decide (j > 0) then
          l ← mat_at cost (i - 1) (j - 1);
          Ok (if ltb l st.1 then (l, -1) else st)
        else Ok st);
  st ← (if decide (j < cols - 1) then
          r ← mat_at cost (i - 1) (j + 1);
          Ok (if ltb r st.1 then (r, 1) else st)
        else Ok st);
  Ok st.

(** The body of the inner loop. *)
Definition dp_step (cols i j : Z) (s : Mat E * Mat Z)
  : outcome (Mat E * Mat Z) :=
  let '(cost, backtrack) := s in
  '(minCost, offset) ← dp_cell cost cols i j;
  c ← mat_at cost i j;
  cost ← mat_set cost i j (add c minCost);
  backtrack ← mat_set backtrack i j offset;
  Ok (cost, backtrack).

(** The two nested loops: the tables [cost] and [backtrack]. *)
Definition dp_table (energy : Mat E) : outcome (Mat E * Mat Z) :=
  let rows := rows energy in
  let cols := cols energy in
  let cost := clone energy in
  backtrack ← mat_create junk rows cols;
  for_range 1 rows (fun i => for_range 0 cols (fun j => dp_step cols i j))
    (cost, backtrack).

(** [std::min_element(first, last) - first]: the index of the first smallest
    element, 0 on an empty range. *)
Fixpoint min_scan (l : list E) (i best : Z) (smallest : E) : Z :=
  match l with
  | [] => best
  | x :: l' =>
      if ltb x smallest then min_scan l' (i + 1) i x
      else min_scan l' (i + 1) best smallest
  end.

Definition min_element (l : list E) : Z :=
  match l with
  | [] => 0
  | x :: l' => min_scan l' 1 0 x
  end.

(** The body of the backtracking loop. *)
Definition back_step (backtrack : Mat Z) (i : Z) (seam : list Z)
  : outcome (list Z) :=
  s ← vec_at seam (i + 1);
  b ← mat_at backtrack (i + 1) s;
  vec_set seam i (s + b).

Definition findSeam (energy : Mat E) : outcome (list Z) :=
  let rows := rows energy in
  let cols := cols energy in
  '(cost, backtrack) ← dp_table energy;
  let seam := replicate (Z.to_nat rows) 0 in
  first ← mat_ptr cost (rows - 1);
  last ← vec_range first cols;
  seam ← vec_set seam (rows - 1) (min_element last);
  for_down (rows - 2) 0 (back_step backtrack) seam.

End SeamSolver.

(** ** SeamRemover: [removeSeam] *)

(** A [cv::Vec3b]: three 8-bit channels. *)
Definition Vec3b : Type := (Byte.byte * Byte.byte * Byte.byte)%type.

Section SeamRemover.
(** The contents of the freshly allocated [output] matrix. *)
Variable junk : Z → Z → Vec3b.

(** The bodies of the two inner loops. *)
Definition copy_left (image : Mat Vec3b) (i j : Z) (output : Mat Vec3b)
  : outcome (Mat Vec3b) :=
  px ← mat_at image i j; mat_set output i j px.

Definition copy_right (image : Mat Vec3b) (i j : Z) (output : Mat Vec3b)
  : outcome (Mat Vec3b) :=
  px ← mat_at image i j; mat_set output i (j - 1) px.

(** The body of the outer loop; [seam[i]] is read before either inner loop
    runs, as their conditions and initialisers do. *)
Definition remove_row (image : Mat Vec3b) (seam : list Z) (cols i : Z)
  (output : Mat Vec3b) : outcome (Mat Vec3b) :=
  s ← vec_at seam i;
  output ← for_range 0 s (copy_left image i) output;
  for_range (s + 1) cols (copy_right image i) output.

Definition removeSeam (image : Mat Vec3b) (seam : list Z)
  : outcome (Mat Vec3b) :=
  let rows := rows image in
  let cols := cols image in
  output ← mat_create junk rows (cols - 1);
  for_range 0 rows (remove_row image seam cols) output.

End SeamRemover.

(** ** EnergyMap and CarveDriver: [computeEnergy] and [seamCarving] *)

(** The line that [seamCarving] prints on [cout]:
    "Error: numSeams (n) exceeds image width (w)!" *)
Inductive diagnostic : Type :=
  | ExceedsWidth (numSeams cols : Z).

Section CarveDriver.
Context {G E : Type}.
Variable add : E → E → E.
Variable ltb : E → E → bool.
Variable absE : E → E.
(** The OpenCV primitives of [computeEnergy]: [cvtColor(_, _, COLOR_BGR2GRAY)]
    and [Sobel(_, _, CV_64F, dx, dy, 3)]. *)
Variable cvtColor : Mat Vec3b → outcome (Mat G).
Variable Sobel : Mat G → Z → Z → outcome (Mat E).
Variable junk_int : Z → Z → Z.
Variable junk_px : Z → Z → Vec3b.

(** [abs(m)], element by element. *)
Definition mat_abs (m : Mat E) : Mat E :=
  mkMat (rows m) (cols m) ((fun r : list E => absE <$> r) <$> data m).

(** [a + b], element by element; OpenCV refuses operands of different
    sizes. *)
Definition mat_add (a b : Mat E) : outcome (Mat E) :=
  if decide (rows a = rows b ∧ cols a = cols b) then
    Ok (mkMat (rows a) (cols a) (zip_with (zip_with add) (data a) (data b)))
  else Raise CvException.

Definition computeEnergy (image : Mat Vec3b) : outcome (Mat E) :=
  gray ← cvtColor image;
  grad_x ← Sobel gray 1 0;
  grad_y ← Sobel gray 0 1;
  let abs_grad_x := mat_abs grad_x in
  let abs_grad_y := mat_abs grad_y in
  mat_add abs_grad_x abs_grad_y.

(** One iteration of the carving loop. *)
Definition carve_step (i : Z) (image : Mat Vec3b) : outcome (Mat Vec3b) :=
  energy ← computeEnergy image;
  seam ← findSeam add ltb junk_int energy;
  removeSeam junk_px image seam.

(** The result is the pair of what was printed and of what is returned. *)
Definition seamCarving (image : Mat Vec3b) (numSeams : Z)
  : list diagnostic * outcome (Mat Vec3b) :=
  if decide (numSeams >= cols image) then
    ([ExceedsWidth numSeams (cols image)], Ok (clone image))
  else
    ([], for_range 0 numSeams carve_step image).

End CarveDriver.

(** ** The command line: [main] *)

(** A [std::string] is a list of characters; [str] turns a literal into
    one. *)
Definition str (s : string) : list ascii := String.list_ascii_of_string s.

(** [s.find_last_of(chars)]: the last position of [s] that holds one of the
    characters [chars]; [None] stands for [npos]. *)
Fixpoint find_last_of_from (s chars : list ascii) (pos : nat) : option nat :=
  match s with
  | [] => None
  | c :: s' =>
      match find_last_of_from s' chars (Datatypes.S pos) with
      | Some p => Some p
      | None => if bool_decide (c ∈ chars) then Some pos else None
      end
  end.

Definition find_last_of (s chars : list ascii) : option nat :=
  find_last_of_from s chars 0.

(** [m.empty()] *)
Definition mat_is_empty {A} (m : Mat A) : bool :=
  bool_decide (rows m = 0 ∨ cols m = 0).

(** The name of the output file: the line that was read, or "resized.png"
    when the line is empty. *)
Definition output_name (line : list ascii) : list ascii :=
  match line with
  | [] => str "resized.png"
  | _ => line
  end.

(** The directory that [main] creates: the name of the output file up to its
    last slash or backslash, or "./" when it has none. *)
Definition output_path (outputImage : list ascii) : list ascii :=
  match find_last_of outputImage (str "/\") with
  | Some pos => take (pos + 1) outputImage
  | None => str "./"
  end.

(** What [main] does to the outside, in order: the lines that it prints on
    [cout] (those of [seamCarving] included), and its calls of
    [create_directories] and [imwrite]. *)
Inductive output : Type :=
  | PromptInput
  | CouldNotOpen (name : list ascii)
  | OriginalSize (cols rows : Z)
  | PromptSeams
  | SeamCarvingSays (d : diagnostic)
  | ResizedEmpty
  | ResizedSize (cols rows : Z)
  | PromptOutput
  | CreateDirectories (path : list ascii)
  | ImWrite (name : list ascii) (image : Mat Vec3b)
  | FailedToSave (name : list ascii)
  | Completed (name : list ascii).

Section Main.
Context {G E : Type}.
Variable add : E → E → E.
Variable ltb : E → E → bool.
Variable absE : E → E.
Variable cvtColor : Mat Vec3b → outcome (Mat G).
Variable Sobel : Mat G → Z → Z → outcome (Mat E).
Variable junk_int : Z → Z → Z.
Variable junk_px : Z → Z → Vec3b.
(** The file system: [imread], which returns an empty matrix for a file that
    it cannot read, [fs::create_directories] and [imwrite]. *)
Variable imread : list ascii → Mat Vec3b.
Variable create_directories : list ascii → outcome bool.
Variable imwrite : list ascii → Mat Vec3b → outcome bool.

(** [main], from what it reads on [cin]: the line [inputImage], the number
    [numSeams] and the line [outputLine].  The result is what it does to the
    outside and the value that it returns. *)
Definition main (inputImage : list ascii) (numSeams : Z)
  (outputLine : list ascii) : list output * outcome Z :=
  let image := imread inputImage in
  if mat_is_empty image then
    ([PromptInput; CouldNotOpen inputImage], Ok (-1))
  else
    let log := [PromptInput; OriginalSize (cols image) (rows image);
                PromptSeams] in
    let '(said, resized) :=
      seamCarving add ltb absE cvtColor Sobel junk_int junk_px image numSeams
    in
    let log := log ++ (SeamCarvingSays <$> said) in
    match resized with
    | Ok resizedImage =>
        if mat_is_empty resizedImage then (log ++ [ResizedEmpty], Ok (-1))
        else
          let log := log ++ [ResizedSize (cols resizedImage)
                               (rows resizedImage); PromptOutput] in
          let outputImage := output_name outputLine in
          let outputPath := output_path outputImage in
          let log := log ++ [CreateDirectories outputPath] in
          match create_directories outputPath with
          | Ok _ =>
              let log := log ++ [ImWrite outputImage resizedImage] in
              match imwrite outputImage resizedImage with
              | Ok true => (log ++ [Completed outputImage], Ok 0)
              | Ok false => (log ++ [FailedToSave outputImage], Ok (-1))
              | Raise e => (log, Raise e)
              | Undefined => (log, Undefined)
              end
          | Raise e => (log, Raise e)
          | Undefined => (log, Undefined)
          end
    | Raise e => (log, Raise e)
    | Undefined => (log, Undefined)
    end.

End Main.

(** ** The OpenCV primitives *)

(** [cvtColor] and [Sobel] belong to OpenCV, not to the repository:
    [computeEnergy] and [seamCarving] take them as parameters.  The two
    definitions below are an instance of them on integer samples, on which the
    statements about the driver are evaluated. *)

(** Modelled from the spec: the grayscale projection that [cvtColor] stands
    for (§4.1, the BT.601 weights 0.299, 0.587 and 0.114), in thousandths;
    the channels of a [Vec3b] are in the order B, G, R. *)
Definition luminance (px : Vec3b) : Z :=
  let '(b, g, r) := px in
  299 * Z.of_N (Strings.Byte.to_N r) + 587 * Z.of_N (Strings.Byte.to_N g)
  + 114 * Z.of_N (Strings.Byte.to_N b).

Definition cvtColor_model (image : Mat Vec3b) : outcome (Mat Z) :=
  if decide (1 ≤ rows image ∧ 1 ≤ cols image) then
    Ok (mkMat (rows image) (cols image)
          ((fun r : list Vec3b => luminance <$> r) <$> data image))
  else Raise CvException.

(** Modelled from the spec: the 3×3 Sobel kernels that [Sobel] stands for
    (§4.1), the samples outside the grid taking the value of the nearest
    sample inside. *)
Definition clamp (len p : Z) : Z := Z.max 0 (Z.min (len - 1) p).

Definition sample (g : Mat Z) (i j : Z) : Z :=
  match mat_at g (clamp (rows g) i) (clamp (cols g) j) with
  | Ok v => v
  | _ => 0
  end.

Definition sobel_at (g : Mat Z) (dx dy i j : Z) : Z :=
  if decide (dx = 1) then
    (sample g (i - 1) (j + 1) - sample g (i - 1) (j - 1))
    + 2 * (sample g i (j + 1) - sample g i (j - 1))
    + (sample g (i + 1) (j + 1) - sample g (i + 1) (j - 1))
  else
    (sample g (i + 1) (j - 1) - sample g (i - 1) (j - 1))
    + 2 * (sample g (i + 1) j - sample g (i - 1) j)
    + (sample g (i + 1) (j + 1) - sample g (i - 1) (j + 1)).

Definition Sobel_model (g : Mat Z) (dx dy : Z) : outcome (Mat Z) :=
  if decide (1 ≤ rows g ∧ 1 ≤ cols g) then
    Ok (mkMat (rows g) (cols g)
          ((fun i => sobel_at g dx dy i <$> seqZ 0 (cols g))
             <$> seqZ 0 (rows g)))
  else Raise CvException.

(** The fields and images of the examples. *)
Definition field3 : Mat Z := mkMat 3 3 [[1; 3; 1]; [3; 1; 3]; [1; 3; 1]].

Definition black : Vec3b := (Byte.x00, Byte.x00, Byte.x00).
Definition white : Vec3b := (Byte.xff, Byte.xff, Byte.xff).
Definition grey : Vec3b := (Byte.x80, Byte.x80, Byte.x80).

Definition image23 : Mat Vec3b :=
  mkMat 2 3 [[black; white; grey]; [grey; black; white]].

Definition no_junk_int : Z → Z → Z := fun _ _ => 0.
Definition no_junk_px : Z → Z → Vec3b := fun _ _ => black.

(** The energy field of [image23], with integer samples. *)
Definition energy23 : Mat Z :=
  mkMat 2 3 [[766000; 766000; 252000]; [258000; 764000; 764000]].

(** A field of one row, a field of constant rows, and an image without
    columns. *)
Definition row311 : Mat Z := mkMat 1 3 [[3; 1; 1]].
Definition rows57 : Mat Z := mkMat 2 2 [[5; 5]; [7; 7]].

(** A file system for the examples of [main]: one readable image, "in.png";
    every directory can be created; a file is written when its name ends in
    ".png". *)
Definition imread_model (name : list ascii) : Mat Vec3b :=
  if decide (name = str "in.png") then image23 else mkMat 0 0 [].
Definition create_directories_model (path : list ascii) : outcome bool :=
  Ok true.
Definition imwrite_model (name : list ascii) (image : Mat Vec3b)
  : outcome bool :=
  Ok (bool_decide (str ".png" `suffix_of` name)).


(** ** The vocabulary of the properties *)

Section SolverVocabulary.
Context {E : Type}.
Variable add : E → E → E.
Variable ltb : E → E → bool.

(** The left, respectively right, predecessor of the cell [(i, j)] is absent
    or not cheaper than [x]. *)
Definition left_not_below (cost : Mat E) (i j : Z) (x : E) : Prop :=
  j > 0 → ∃ l, mat_at cost (i - 1) (j - 1) = Ok l ∧ ltb l x = false.

Definition right_not_below (cost : Mat E) (W i j : Z) (x : E) : Prop :=
  j < W - 1 → ∃ r, mat_at cost (i - 1) (j + 1) = Ok r ∧ ltb r x = false.

(** No predecessor of the cell [(i, j)] is cheaper than [x]. *)
Definition is_min (cost : Mat E) (i j : Z) (x : E) : Prop :=
  ∀ d y, -1 ≤ d ≤ 1 → mat_at cost (i - 1) (j + d) = Ok y → ltb y x = false.

(** The cell [(i, j)] of both tables holds what the loop body computes from
    the row above. *)
Definition cell_ok (energy cost : Mat E) (back : Mat Z) (i j : Z) : Prop :=
  ∃ e mc off, mat_at energy i j = Ok e ∧
    dp_cell ltb cost (cols energy) i j = Ok (mc, off) ∧
    mat_at cost i j = Ok (add e mc) ∧ mat_at back i j = Ok off.

(** The cells that the loops have written when they reach [(i, j)]. *)
Definition processed (i j i' j' : Z) : Prop :=
  1 ≤ i' ∧ (i' < i ∨ (i' = i ∧ j' < j)).

Definition dp_inv (energy : Mat E) (H W i j : Z) (s : Mat E * Mat Z) : Prop :=
  shape s.1 H W ∧ shape s.2 H W ∧
  (∀ i' j', processed i j i' j' → 0 ≤ j' < W → cell_ok energy s.1 s.2 i' j') ∧
  (∀ i' j', ¬ processed i j i' j' → mat_at s.1 i' j' = mat_at energy i' j').

(** The tables when the loops are over. *)
Definition dp_done (energy : Mat E) (H W : Z) (cost : Mat E) (back : Mat Z)
  : Prop :=
  shape cost H W ∧ shape back H W ∧
  (∀ j, mat_at cost 0 j = mat_at energy 0 j) ∧
  (∀ i j, 1 ≤ i < H → 0 ≤ j < W → cell_ok energy cost back i j).

(** A vertical path of an [H]×[W] grid: one column per row, every column
    inside the grid, the columns of adjacent rows at most one apart. *)
Definition vertical_path (H W : Z) (p : list Z) : Prop :=
  Z.of_nat (length p) = H ∧
  (∀ i c, vec_at p i = Ok c → 0 ≤ c < W) ∧
  (∀ i c c', vec_at p i = Ok c → vec_at p (i + 1) = Ok c' →
     Z.abs (c' - c) ≤ 1).

(** The energy of the path [p] down to the row [k], summed from the top in
    the order in which the dynamic program adds. *)
Fixpoint path_energy (energy : Mat E) (p : list Z) (k : nat) : outcome E :=
  match k with
  | O => c ← vec_at p 0; mat_at energy 0 c
  | Datatypes.S k' =>
      s ← path_energy energy p k';
      c ← vec_at p (Z.of_nat k);
      e ← mat_at energy (Z.of_nat k) c;
      Ok (add e s)
  end.

(** The total energy of a path that runs from the first row to the last. *)
Definition seam_energy (energy : Mat E) (p : list Z) : outcome E :=
  path_energy energy p (Z.to_nat (rows energy - 1)).

(** The seam while the backtracking loop runs: the entries of the rows [lo]
    and below are written, the last one is [jstar], and each written entry
    follows from the one below it by the stored offset. *)
Definition seam_from (back : Mat Z) (H W jstar lo : Z) (seam : list Z)
  : Prop :=
  Z.of_nat (length seam) = H ∧
  vec_at seam (H - 1) = Ok jstar ∧
  (∀ i, lo ≤ i < H → ∃ c, vec_at seam i = Ok c ∧ 0 ≤ c < W) ∧
  (∀ i, lo ≤ i < H - 1 → ∃ s b, vec_at seam (i + 1) = Ok s ∧
     mat_at back (i + 1) s = Ok b ∧ vec_at seam i = Ok (s + b)).

End SolverVocabulary.

Section RemoverVocabulary.

(** The input column that lands in the output column [j] of a row whose seam
    column is [s]. *)
Definition shifted (s j : Z) : Z :=
  if decide (j < s) then j else j + 1.

(** The row [i] of [output] is the row [i] of [image] without its seam
    column [s]. *)
Definition row_removed (image output : Mat Vec3b) (W i s : Z) : Prop :=
  ∀ j, 0 ≤ j < W - 1 → mat_at output i j = mat_at image i (shifted s j).

End RemoverVocabulary.


(** * Properties *)

(** ** The outcome monad *)

Lemma bind_Ok {A B} (m : outcome A) (f : A → outcome B) (b : B) :
  m ≫= f = Ok b ↔ ∃ a, m = Ok a ∧ f a = Ok b.
Proof.
  destruct m; simpl; split; try (intros (? & ? & ?)); try done; eauto.
  by simplify_eq.
Qed.

(** Two reads of one place return one value. *)
Ltac same_read :=
  repeat match goal with
  | H1 : ?m = Ok ?x, H2 : ?m = Ok ?y |- _ =>
      let Heq := fresh in
      assert (y = x) as Heq by congruence; clear H2; subst y
  end.

(** ** Loops *)

Section LoopFacts.
Context {S : Type}.
Implicit Types (body : Z → S → outcome S) (P : Z → S → Prop).

Lemma iter_up_inv P body n i s :
  P i s →
  (∀ k s, i ≤ k < i + Z.of_nat n → P k s →
     ∃ s', body k s = Ok s' ∧ P (k + 1) s') →
  ∃ s', iter_up n i body s = Ok s' ∧ P (i + Z.of_nat n) s'.
Proof.
  revert i s. induction n as [|n IH]; intros i s Hs Hbody.
  - exists s. split; [done|]. by replace (i + Z.of_nat 0) with i by lia.
  - destruct (Hbody i s) as (s1 & Hb & Hs1); [lia|done|].
    destruct (IH (i + 1) s1) as (s2 & Hi & Hs2); [done| |].
    + intros k s' Hk. apply Hbody. lia.
    + exists s2. simpl. rewrite Hb. simpl. split; [done|].
      by replace (i + Z.of_nat (Datatypes.S n)) with (i + 1 + Z.of_nat n) by lia.
Qed.

Lemma for_range_inv P lo hi body s :
  lo ≤ hi → P lo s →
  (∀ k s, lo ≤ k < hi → P k s → ∃ s', body k s = Ok s' ∧ P (k + 1) s') →
  ∃ s', for_range lo hi body s = Ok s' ∧ P hi s'.
Proof.
  intros Hle Hs Hbody. unfold for_range.
  destruct (iter_up_inv P body (Z.to_nat (hi - lo)) lo s) as (s' & ? & Hs');
    [done| |].
  - intros k s' Hk. apply Hbody. lia.
  - exists s'. split; [done|].
    by replace (lo + Z.of_nat (Z.to_nat (hi - lo))) with hi in Hs' by lia.
Qed.

Lemma for_range_empty lo hi body s :
  hi ≤ lo → for_range lo hi body s = Ok s.
Proof.
  intros. unfold for_range. by replace (Z.to_nat (hi - lo)) with O by lia.
Qed.

Lemma iter_down_inv P body n i s :
  P i s →
  (∀ k s, i - Z.of_nat n < k ≤ i → P k s →
     ∃ s', body k s = Ok s' ∧ P (k - 1) s') →
  ∃ s', iter_down n i body s = Ok s' ∧ P (i - Z.of_nat n) s'.
Proof.
  revert i s. induction n as [|n IH]; intros i s Hs Hbody.
  - exists s. split; [done|]. by replace (i - Z.of_nat 0) with i by lia.
  - destruct (Hbody i s) as (s1 & Hb & Hs1); [lia|done|].
    destruct (IH (i - 1) s1) as (s2 & Hi & Hs2); [done| |].
    + intros k s' Hk. apply Hbody. lia.
    + exists s2. simpl. rewrite Hb. simpl. split; [done|].
      by replace (i - Z.of_nat (Datatypes.S n)) with (i - 1 - Z.of_nat n) by lia.
Qed.

Lemma for_down_inv P hi lo body s :
  lo - 1 ≤ hi → P hi s →
  (∀ k s, lo ≤ k ≤ hi → P k s → ∃ s', body k s = Ok s' ∧ P (k - 1) s') →
  ∃ s', for_down hi lo body s = Ok s' ∧ P (lo - 1) s'.
Proof.
  intros Hle Hs Hbody. unfold for_down.
  destruct (iter_down_inv P body (Z.to_nat (hi - lo + 1)) hi s)
    as (s' & ? & Hs'); [done| |].
  - intros k s' Hk. apply Hbody. lia.
  - exists s'. split; [done|].
    by replace (hi - Z.of_nat (Z.to_nat (hi - lo + 1))) with (lo - 1) in Hs' by lia.
Qed.

Lemma iter_up_app body n m i s :
  iter_up (n + m) i body s =
    iter_up n i body s ≫= iter_up m (i + Z.of_nat n) body.
Proof.
  revert i s. induction n as [|n IH]; intros i s.
  - simpl. by rewrite Z.add_0_r.
  - simpl. destruct (body i s) as [s'| |]; simpl; [|done..].
    rewrite IH. by replace (i + 1 + Z.of_nat n)
      with (i + Z.of_nat (Datatypes.S n)) by lia.
Qed.

Lemma for_range_split lo k hi body s :
  lo ≤ k ≤ hi →
  for_range lo hi body s = for_range lo k body s ≫= for_range k hi body.
Proof.
  intros Hk. unfold for_range.
  replace (Z.to_nat (hi - lo))
    with (Z.to_nat (k - lo) + Z.to_nat (hi - k))%nat by lia.
  rewrite iter_up_app. by replace (lo + Z.of_nat (Z.to_nat (k - lo))) with k by lia.
Qed.

Lemma for_range_first lo hi body s :
  lo < hi →
  for_range lo hi body s = body lo s ≫= for_range (lo + 1) hi body.
Proof.
  intros Hlt. unfold for_range.
  replace (Z.to_nat (hi - lo)) with (Datatypes.S (Z.to_nat (hi - (lo + 1))))
    by lia.
  done.
Qed.

(** A loop with an iteration that cannot succeed does not succeed. *)
Lemma iter_up_undefined P body n i s :
  P i s →
  (∀ k s, i ≤ k < i + Z.of_nat n → P k s →
     (∃ s', body k s = Ok s' ∧ P (k + 1) s') ∨ body k s = Undefined) →
  (∃ k, i ≤ k < i + Z.of_nat n ∧ ∀ s, P k s → body k s = Undefined) →
  iter_up n i body s = Undefined.
Proof.
  revert i s. induction n as [|n IH]; intros i s Hs Hbody (k & Hk & Hbad).
  - lia.
  - simpl. destruct (Hbody i s) as [(s' & Hb & Hs')| ->]; [lia|done| |done].
    rewrite Hb. simpl. apply IH; [done| |].
    + intros k' s'' Hk'. apply Hbody. lia.
    + exists k. split; [|done].
      destruct (decide (k = i)) as [->|]; [|lia].
      rewrite (Hbad s Hs) in Hb. done.
Qed.

Lemma for_range_undefined P lo hi body s :
  P lo s →
  (∀ k s, lo ≤ k < hi → P k s →
     (∃ s', body k s = Ok s' ∧ P (k + 1) s') ∨ body k s = Undefined) →
  (∃ k, lo ≤ k < hi ∧ ∀ s, P k s → body k s = Undefined) →
  for_range lo hi body s = Undefined.
Proof.
  intros Hs Hbody (k & Hk & Hbad). unfold for_range.
  apply (iter_up_undefined P); [done| |].
  - intros k' s' Hk'. apply Hbody. lia.
  - exists k. split; [lia|done].
Qed.


End LoopFacts.

(** ** Vectors and matrices *)

Section VecFacts.
Context {A : Type}.
Implicit Types (v : list A).

Lemma vec_at_Ok v i x :
  vec_at v i = Ok x ↔ 0 ≤ i ∧ v !! Z.to_nat i = Some x.
Proof.
  unfold vec_at. case_decide as Hi; [|by split; [|intros [? _]]].
  destruct (v !! Z.to_nat i) as [y|]; split; try done.
  - intros [= ->]. done.
  - by intros [_ [= ->]].
  - by intros [_ ?].
Qed.

Lemma vec_at_range v i x :
  vec_at v i = Ok x → 0 ≤ i < Z.of_nat (length v).
Proof.
  rewrite vec_at_Ok. intros [? Hx]. apply lookup_lt_Some in Hx. lia.
Qed.

Lemma vec_at_in v i :
  0 ≤ i < Z.of_nat (length v) → ∃ x, vec_at v i = Ok x.
Proof.
  intros. destruct (lookup_lt_is_Some_2 v (Z.to_nat i)) as [x Hx]; [lia|].
  exists x. apply vec_at_Ok. split; [lia|done].
Qed.

Lemma vec_at_out v i :
  ¬ (0 ≤ i < Z.of_nat (length v)) → vec_at v i = Undefined.
Proof.
  intros Hi. unfold vec_at. case_decide; [|done].
  rewrite lookup_ge_None_2; [done|lia].
Qed.

Lemma vec_set_Ok v i x :
  0 ≤ i < Z.of_nat (length v) → vec_set v i x = Ok (<[Z.to_nat i := x]> v).
Proof. intros. unfold vec_set. by rewrite decide_True. Qed.

Lemma vec_at_insert v i k x :
  0 ≤ i < Z.of_nat (length v) →
  vec_at (<[Z.to_nat i := x]> v) k = if decide (k = i) then Ok x else vec_at v k.
Proof.
  intros Hi. unfold vec_at. destruct (decide (k = i)) as [->|Hk].
  - rewrite decide_True by lia.
    rewrite list_lookup_insert_eq; [done|lia].
  - case_decide; [|done]. rewrite list_lookup_insert_ne; [done|lia].
Qed.

Lemma vec_set_spec v i x :
  0 ≤ i < Z.of_nat (length v) →
  ∃ v', vec_set v i x = Ok v' ∧ length v' = length v ∧
    ∀ k, vec_at v' k = if decide (k = i) then Ok x else vec_at v k.
Proof.
  intros Hi. eexists. split; [by apply vec_set_Ok|].
  split; [by rewrite length_insert|]. intros k. by apply vec_at_insert.
Qed.

Lemma vec_at_ext v1 v2 :
  (∀ k, vec_at v1 k = vec_at v2 k) → v1 = v2.
Proof.
  intros Heq. apply list_eq. intros n. specialize (Heq (Z.of_nat n)).
  unfold vec_at in Heq. rewrite !decide_True, !Nat2Z.id in Heq by lia.
  destruct (v1 !! n), (v2 !! n); congruence.
Qed.

Lemma vec_at_snoc v x k y :
  vec_at (v ++ [x]) k = Ok y ↔
  vec_at v k = Ok y ∨ (k = Z.of_nat (length v) ∧ y = x).
Proof.
  rewrite !vec_at_Ok, lookup_app_Some, list_lookup_singleton_Some. split.
  - intros [Hk [?|(? & ? & ?)]]; [by left|right]. split; [lia|done].
  - intros [[? ?]|[-> ->]]; [by split; [|left]|].
    split; [lia|]. right. rewrite Nat2Z.id. split; [lia|]. split; [lia|done].
Qed.

Lemma vec_range_all v n :
  Z.of_nat (length v) = n → vec_range v n = Ok v.
Proof.
  intros <-. unfold vec_range. rewrite decide_True by lia.
  by rewrite Nat2Z.id, firstn_all.
Qed.

Lemma vec_range_raise v n e : vec_range v n ≠ Raise e.
Proof. unfold vec_range. by case_decide. Qed.


End VecFacts.

Section MatFacts.
Context {A : Type}.
Implicit Types (m : Mat A).

Lemma mat_ptr_rows m i :
  data m ≠ [] → mat_ptr m i = vec_at (data m) i.
Proof. unfold mat_ptr. by destruct (data m). Qed.

Lemma mat_ptr_no_rows m i :
  data m = [] → mat_ptr m i = if decide (i = 0) then Ok [] else Undefined.
Proof. unfold mat_ptr. by intros ->. Qed.

Lemma shape_rows m H W : shape m H W → 1 ≤ H → data m ≠ [].
Proof. intros (_ & _ & _ & Hlen & _) HH Hnil. rewrite Hnil in Hlen. simpl in Hlen. lia. Qed.

Lemma mat_ptr_in m H W i :
  shape m H W → 0 ≤ i < H →
  ∃ r, mat_ptr m i = Ok r ∧ Z.of_nat (length r) = W.
Proof.
  intros Hm Hi. rewrite mat_ptr_rows by (eapply shape_rows; [done|lia]).
  destruct Hm as (_ & _ & _ & Hlen & Hall).
  destruct (vec_at_in (data m) i) as [r Hr]; [lia|].
  exists r. split; [done|].
  apply vec_at_Ok in Hr as [_ Hr].
  by eapply (Forall_lookup_1 _ _ _ _ Hall).
Qed.

Lemma mat_at_in m H W i j :
  shape m H W → 0 ≤ i < H → 0 ≤ j < W → ∃ x, mat_at m i j = Ok x.
Proof.
  intros Hm Hi Hj. destruct (mat_ptr_in m H W i) as (r & Hr & Hlen); [done..|].
  destruct (vec_at_in r j) as [x Hx]; [lia|].
  exists x. unfold mat_at. by rewrite Hr.
Qed.

Lemma mat_at_range m H W i j x :
  shape m H W → mat_at m i j = Ok x → 0 ≤ i < H ∧ 0 ≤ j < W.
Proof.
  intros Hm (r & Hr & Hx)%bind_Ok.
  destruct (data m) as [|r0 d] eqn:Hd.
  - rewrite mat_ptr_no_rows in Hr by done. case_decide; [|done].
    simplify_eq. by cbv in Hx; case_match.
  - rewrite mat_ptr_rows in Hr by congruence.
    destruct Hm as (_ & _ & _ & Hlen & Hall).
    pose proof (vec_at_range _ _ _ Hr) as Hi. apply vec_at_Ok in Hr as [_ Hr].
    apply (Forall_lookup_1 _ _ _ _ Hall) in Hr.
    apply vec_at_range in Hx. lia.
Qed.

Lemma mat_ptr_raise m i e : mat_ptr m i ≠ Raise e.
Proof.
  unfold mat_ptr, vec_at. by repeat (case_decide || case_match).
Qed.

Lemma mat_at_out m H W i j :
  shape m H W → ¬ (0 ≤ i < H ∧ 0 ≤ j < W) → mat_at m i j = Undefined.
Proof.
  intros Hm Hout. destruct (mat_at m i j) as [x|e|] eqn:Hat; [| |done].
  - by apply (mat_at_range _ _ _ _ _ _ Hm) in Hat.
  - unfold mat_at in Hat. destruct (mat_ptr m i) as [r|e'|] eqn:Hr; simpl in Hat.
    + unfold vec_at in Hat. by repeat (case_decide || case_match).
    + by apply mat_ptr_raise in Hr.
    + done.
Qed.

Lemma mat_set_spec m H W i j x :
  shape m H W → 0 ≤ i < H → 0 ≤ j < W →
  ∃ m', mat_set m i j x = Ok m' ∧ shape m' H W ∧
    ∀ i' j', mat_at m' i' j' =
             if decide (i' = i ∧ j' = j) then Ok x else mat_at m i' j'.
Proof.
  intros Hm Hi Hj.
  destruct (mat_ptr_in m H W i) as (r & Hr & Hlen); [done..|].
  assert (data m ≠ []) as Hrows by (eapply shape_rows; [done|lia]).
  destruct Hm as (Hrows' & Hcols & HW & Hdata & Hall).
  eexists. split; [|split].
  - unfold mat_set. rewrite Hr. simpl.
    rewrite vec_set_Ok by lia. simpl. by rewrite vec_set_Ok by lia.
  - repeat split; simpl; [done..| |].
    + by rewrite length_insert.
    + apply Forall_insert; [done|]. by rewrite length_insert.
  - intros i' j'. unfold mat_at. rewrite mat_ptr_rows in Hr by done.
    rewrite !mat_ptr_rows; simpl; [|done|].
    2: { intros Hnil. apply (f_equal length) in Hnil.
         rewrite length_insert in Hnil. by destruct (data m). }
    rewrite vec_at_insert by lia.
    case_decide as Hi'.
    + subst i'. simpl. rewrite vec_at_insert by lia. rewrite Hr. simpl.
      destruct (decide (j' = j)) as [->|Hj'].
      * by rewrite decide_True.
      * rewrite decide_False; [done|]. by intros [_ ?].
    + rewrite decide_False; [done|]. by intros [? _].
Qed.

Lemma mat_set_out m H W i j x :
  shape m H W → ¬ (0 ≤ i < H ∧ 0 ≤ j < W) → mat_set m i j x = Undefined.
Proof.
  intros Hm Hout. unfold mat_set.
  destruct (decide (0 ≤ i < H)) as [Hi|Hi].
  - destruct (mat_ptr_in m H W i) as (r & -> & Hlen); [done..|]. simpl.
    unfold vec_set. rewrite decide_False by lia. done.
  - destruct (data m) as [|r0 d] eqn:Hd.
    + rewrite mat_ptr_no_rows by done. case_decide; simpl; [|done].
      unfold vec_set. by rewrite decide_False by (simpl; lia).
    + rewrite mat_ptr_rows by congruence. rewrite vec_at_out; [done|].
      destruct Hm as (_ & _ & _ & ? & _). rewrite Hd in *. lia.
Qed.

Lemma mat_create_spec (fill : Z → Z → A) H W :
  0 ≤ H → 0 ≤ W → ∃ m, mat_create fill H W = Ok m ∧ shape m H W.
Proof.
  intros. eexists. split.
  - unfold mat_create. by rewrite decide_True.
  - repeat split; simpl; [done| |].
    + rewrite length_fmap, length_seqZ. lia.
    + apply Forall_fmap, Forall_forall. intros i _. simpl.
      rewrite length_fmap, length_seqZ. lia.
Qed.

Lemma clone_eq m H W : shape m H W → 1 ≤ H → 1 ≤ W → clone m = m.
Proof.
  intros (Hrows & Hcols & _) HH HW. unfold clone.
  rewrite decide_False by lia. by destruct m.
Qed.

Lemma clone_no_element m H W :
  shape m H W → H < 1 ∨ W < 1 → clone m = mkMat 0 0 [].
Proof.
  intros (Hrows & Hcols & ? & ? & _) Hdeg. unfold clone.
  rewrite decide_True; [done|lia].
Qed.

Lemma clone_pixels m H W :
  shape m H W → ∀ i j, mat_at (clone m) i j = mat_at m i j.
Proof.
  intros Hm i j. destruct (decide (H < 1 ∨ W < 1)) as [Hdeg|Hdeg].
  - rewrite (clone_no_element m H W), (mat_at_out m H W) by (done || lia).
    unfold mat_at, mat_ptr. simpl. case_decide; [|done]. simpl.
    unfold vec_at. by case_decide.
  - by rewrite (clone_eq m H W) by (done || lia).
Qed.


Lemma mat_ext (m1 m2 : Mat A) H W :
  shape m1 H W → shape m2 H W →
  (∀ i j, 0 ≤ i < H → 0 ≤ j < W → mat_at m1 i j = mat_at m2 i j) →
  m1 = m2.
Proof.
  intros Hm1 Hm2 Heq.
  assert (data m1 = data m2) as Hdata.
  { apply vec_at_ext. intros i.
    destruct (decide (0 ≤ i < H)) as [Hi|Hi].
    - destruct (mat_ptr_in m1 H W i) as (r1 & Hr1 & Hlen1); [done..|].
      destruct (mat_ptr_in m2 H W i) as (r2 & Hr2 & Hlen2); [done..|].
      assert (r1 = r2) as ->.
      { apply vec_at_ext. intros j.
        destruct (decide (0 ≤ j < W)) as [Hj|Hj].
        + specialize (Heq i j Hi Hj). unfold mat_at in Heq.
          by rewrite Hr1, Hr2 in Heq.
        + by rewrite !vec_at_out by lia. }
      rewrite mat_ptr_rows in Hr1, Hr2 by (eapply shape_rows; [done|lia]).
      by rewrite Hr1, Hr2.
    - destruct Hm1 as (_ & _ & _ & ? & _), Hm2 as (_ & _ & _ & ? & _).
      by rewrite !vec_at_out by lia. }
  destruct m1, m2, Hm1 as (? & ? & _), Hm2 as (? & ? & _).
  simpl in *. congruence.
Qed.

End MatFacts.

(** ** Failures *)

Section RaiseFacts.

Lemma bind_Raise {A B} (m : outcome A) (f : A → outcome B) e :
  m ≫= f = Raise e → m = Raise e ∨ ∃ a, m = Ok a ∧ f a = Raise e.
Proof.
  destruct m as [a| |]; simpl; intros Hm;
    [right; by exists a|left; by simplify_eq|done].
Qed.

Lemma vec_at_raise {A} (v : list A) i e : vec_at v i ≠ Raise e.
Proof. unfold vec_at. by repeat (case_decide || case_match). Qed.

Lemma vec_set_raise {A} (v : list A) i x e : vec_set v i x ≠ Raise e.
Proof. unfold vec_set. by case_decide. Qed.

Lemma mat_at_raise {A} (m : Mat A) i j e : mat_at m i j ≠ Raise e.
Proof.
  intros [H|(r & _ & H)]%bind_Raise;
    [by apply mat_ptr_raise in H|by apply vec_at_raise in H].
Qed.

Lemma mat_set_raise {A} (m : Mat A) i j x e : mat_set m i j x ≠ Raise e.
Proof.
  intros [H|(r & _ & H)]%bind_Raise; [by apply mat_ptr_raise in H|].
  apply bind_Raise in H as [H|(r' & _ & H)]; [by apply vec_set_raise in H|].
  apply bind_Raise in H as [H|(d & _ & H)]; [by apply vec_set_raise in H|done].
Qed.

Lemma mat_create_raise {A} (fill : Z → Z → A) r c e :
  mat_create fill r c = Raise e → e = CvException.
Proof. unfold mat_create. case_decide; [done|]. by intros [= <-]. Qed.

Lemma iter_up_raise {S} (body : Z → S → outcome S) n i s e :
  iter_up n i body s = Raise e → ∃ k s', body k s' = Raise e.
Proof.
  revert i s. induction n as [|n IH]; intros i s; simpl; [done|].
  intros [H|(s' & _ & H)]%bind_Raise; eauto.
Qed.

Lemma iter_down_raise {S} (body : Z → S → outcome S) n i s e :
  iter_down n i body s = Raise e → ∃ k s', body k s' = Raise e.
Proof.
  revert i s. induction n as [|n IH]; intros i s; simpl; [done|].
  intros [H|(s' & _ & H)]%bind_Raise; eauto.
Qed.

(** The only failure of [removeSeam] is the assertion of [Mat::create]. *)
Lemma removeSeam_raise junk image seam e :
  removeSeam junk image seam = Raise e → e = CvException.
Proof.
  intros [H|(out & _ & H)]%bind_Raise; [by apply mat_create_raise in H|].
  apply iter_up_raise in H as (i & out' & H).
  apply bind_Raise in H as [H|(s & _ & H)]; [by apply vec_at_raise in H|].
  apply bind_Raise in H as [H|(out'' & _ & H)];
    apply iter_up_raise in H as (j & o & H);
    (apply bind_Raise in H as [H|(px & _ & H)];
      [by apply mat_at_raise in H|by apply mat_set_raise in H]).
Qed.

(** The only failure of [findSeam] is the assertion of [Mat::create]. *)
Lemma findSeam_raise {E} (add : E → E → E) ltb junk energy e :
  findSeam add ltb junk energy = Raise e → e = CvException.
Proof.
  intros [H|([cost back] & _ & H)]%bind_Raise.
  - apply bind_Raise in H as [H|(back & _ & H)];
      [by apply mat_create_raise in H|].
    apply iter_up_raise in H as (i & s & H).
    apply iter_up_raise in H as (j & [cost back'] & H).
    apply bind_Raise in H as [H|([mc off] & _ & H)].
    + unfold dp_cell in H.
      apply bind_Raise in H as [H|(c & _ & H)]; [by apply mat_at_raise in H|].
      apply bind_Raise in H as [H|(st & _ & H)].
      * case_decide; [|done].
        apply bind_Raise in H as [H|(l & _ & H)]; [|done].
        by apply mat_at_raise in H.
      * apply bind_Raise in H as [H|(st' & _ & H)]; [|done].
        case_decide; [|done].
        apply bind_Raise in H as [H|(l & _ & H)]; [|done].
        by apply mat_at_raise in H.
    + apply bind_Raise in H as [H|(c & _ & H)]; [by apply mat_at_raise in H|].
      apply bind_Raise in H as [H|(c' & _ & H)]; [by apply mat_set_raise in H|].
      apply bind_Raise in H as [H|(b & _ & H)]; [|done].
      by apply mat_set_raise in H.
  - apply bind_Raise in H as [H|(first & _ & H)];
      [by apply mat_ptr_raise in H|].
    apply bind_Raise in H as [H|(last & _ & H)];
      [by apply vec_range_raise in H|].
    apply bind_Raise in H as [H|(seam & _ & H)]; [by apply vec_set_raise in H|].
    apply iter_down_raise in H as (i & s & H).
    apply bind_Raise in H as [H|(x & _ & H)]; [by apply vec_at_raise in H|].
    apply bind_Raise in H as [H|(b & _ & H)]; [by apply mat_at_raise in H|].
    by apply vec_set_raise in H.
Qed.

End RaiseFacts.

(** ** The dynamic program of [findSeam] *)

Section SolverFacts.
Context {E : Type}.
Variable add : E → E → E.
Variable ltb : E → E → bool.

(** [dp_cell] reads the row above the cell and nothing else. *)
Lemma dp_cell_ext (c1 c2 : Mat E) W i j :
  (∀ j', mat_at c1 (i - 1) j' = mat_at c2 (i - 1) j') →
  dp_cell ltb c1 W i j = dp_cell ltb c2 W i j.
Proof.
  intros Heq. unfold dp_cell. rewrite (Heq j).
  destruct (mat_at c2 (i - 1) j) as [c| |]; simpl; [|done..].
  rewrite (Heq (j - 1)).
  destruct (decide (j > 0)); [destruct (mat_at c2 (i - 1) (j - 1))|]; simpl;
    by rewrite ?(Heq (j + 1)).
Qed.

Lemma dp_cell_in (cost : Mat E) H W i j :
  shape cost H W → 1 ≤ i ≤ H → 0 ≤ j < W →
  ∃ mc off, dp_cell ltb cost W i j = Ok (mc, off).
Proof.
  intros Hc Hi Hj. unfold dp_cell.
  destruct (mat_at_in cost H W (i - 1) j) as [c ->]; [done|lia..|]. simpl.
  destruct (decide (j > 0)).
  - destruct (mat_at_in cost H W (i - 1) (j - 1)) as [l ->]; [done|lia..|].
    simpl. destruct (decide (j < W - 1)).
    + destruct (mat_at_in cost H W (i - 1) (j + 1)) as [r ->]; [done|lia..|].
      simpl. destruct (ltb l c); simpl; destruct (ltb r _); eauto.
    + simpl. destruct (ltb l c); eauto.
  - simpl. destruct (decide (j < W - 1)).
    + destruct (mat_at_in cost H W (i - 1) (j + 1)) as [r ->]; [done|lia..|].
      simpl. destruct (ltb r c); eauto.
    + simpl. eauto.
Qed.

(** What [dp_cell] chose, case by case. *)
Lemma dp_cell_inv (cost : Mat E) W i j mc off :
  dp_cell ltb cost W i j = Ok (mc, off) →
  ∃ c, mat_at cost (i - 1) j = Ok c ∧
    ((off = 0 ∧ mc = c ∧ left_not_below ltb cost i j c ∧
        right_not_below ltb cost W i j c) ∨
     (off = -1 ∧ j > 0 ∧ mat_at cost (i - 1) (j - 1) = Ok mc ∧
        ltb mc c = true ∧ right_not_below ltb cost W i j mc) ∨
     (off = 1 ∧ j < W - 1 ∧ mat_at cost (i - 1) (j + 1) = Ok mc ∧
        ltb mc c = true ∧ left_not_below ltb cost i j c) ∨
     (off = 1 ∧ j < W - 1 ∧ j > 0 ∧ mat_at cost (i - 1) (j + 1) = Ok mc ∧
        ∃ l, mat_at cost (i - 1) (j - 1) = Ok l ∧ ltb l c = true ∧
             ltb mc l = true)).
Proof.
  unfold dp_cell, left_not_below, right_not_below.
  destruct (mat_at cost (i - 1) j) as [c| |]; simpl; [|done..].
  intros Hcell. exists c. split; [done|].
  destruct (decide (j > 0)) as [Hl|Hl]; simpl in Hcell.
  - destruct (mat_at cost (i - 1) (j - 1)) as [l| |]; simpl in Hcell; [|done..].
    destruct (decide (j < W - 1)) as [Hr|Hr]; simpl in Hcell.
    + destruct (mat_at cost (i - 1) (j + 1)) as [r| |]; simpl in Hcell;
        [|done..].
      destruct (ltb l c) eqn:Hlc; simpl in Hcell;
        destruct (ltb r _) eqn:Hrc; simplify_eq; eauto 12.
    + destruct (ltb l c) eqn:Hlc; simplify_eq.
      * right; left. repeat split; [done..|]. intros; lia.
      * left. repeat split; eauto. intros; lia.
  - destruct (decide (j < W - 1)) as [Hr|Hr]; simpl in Hcell.
    + destruct (mat_at cost (i - 1) (j + 1)) as [r| |]; simpl in Hcell;
        [|done..].
      destruct (ltb r c) eqn:Hrc; simplify_eq.
      * right; right; left. repeat split; [done..|]. intros; lia.
      * left. repeat split; eauto. intros; lia.
    + simplify_eq. left. repeat split; intros; lia.
Qed.

(** *** The two nested loops *)

Variable junk : Z → Z → Z.

Lemma dp_step_inv energy H W i j s :
  shape energy H W → 1 ≤ i < H → 0 ≤ j < W → dp_inv add ltb energy H W i j s →
  ∃ s', dp_step add ltb W i j s = Ok s' ∧ dp_inv add ltb energy H W i (j + 1) s'.
Proof.
  intros He Hi Hj. destruct s as [cost back].
  intros (Hc & Hb & Hdone & Htodo); simpl in *.
  destruct (dp_cell_in cost H W i j) as (mc & off & Hcell); [done|lia..|].
  destruct (mat_at_in energy H W i j) as [e Hat_e]; [done|lia..|].
  assert (mat_at cost i j = Ok e) as Hat_c.
  { rewrite Htodo; [done|]. unfold processed. lia. }
  destruct (mat_set_spec cost H W i j (add e mc))
    as (cost' & Hset & Hc' & Hat); [done|lia..|].
  destruct (mat_set_spec back H W i j off)
    as (back' & Hsetb & Hb' & Hatb); [done|lia..|].
  assert (cols energy = W) as HW by apply He.
  exists (cost', back'). split.
  { unfold dp_step. rewrite Hcell. simpl. rewrite Hat_c. simpl.
    rewrite Hset. simpl. by rewrite Hsetb. }
  split; [done|]. split; [done|]. simpl. split.
  - intros i' j' Hp Hj'. unfold processed in Hp.
    destruct (decide (i' = i ∧ j' = j)) as [[-> ->]|Hne].
    + exists e, mc, off. rewrite Hat, Hatb, !decide_True by done.
      split; [done|]. split; [|done]. rewrite HW, <- Hcell.
      apply dp_cell_ext. intros j'. rewrite Hat.
      rewrite decide_False; [done|lia].
    + destruct (Hdone i' j') as (e' & mc' & off' & ? & Hcell' & ? & ?);
        [unfold processed; lia|done|].
      exists e', mc', off'. rewrite Hat, Hatb, !decide_False by done.
      split; [done|]. split; [|done]. rewrite <- Hcell'.
      apply dp_cell_ext. intros j''. rewrite Hat.
      rewrite decide_False; [done|lia].
  - intros i' j' Hnp. unfold processed in Hnp. rewrite Hat.
    rewrite decide_False by lia. apply Htodo. unfold processed. lia.
Qed.

Lemma dp_row_inv energy H W i s :
  shape energy H W → 1 ≤ i < H → dp_inv add ltb energy H W i 0 s →
  ∃ s', for_range 0 W (dp_step add ltb W i) s = Ok s' ∧
        dp_inv add ltb energy H W (i + 1) 0 s'.
Proof.
  intros He Hi Hs.
  destruct (for_range_inv (dp_inv add ltb energy H W i) 0 W (dp_step add ltb W i) s)
    as (s' & Hloop & Hc & Hb & Hdone & Htodo).
  - apply He.
  - done.
  - intros j s1 Hj Hs1. by apply dp_step_inv.
  - exists s'. split; [done|]. split; [done|]. split; [done|]. split.
    + intros i' j' Hp Hj'. apply Hdone; [|done].
      unfold processed in *. lia.
    + intros i' j' Hnp. apply Htodo. unfold processed in *. lia.
Qed.

Lemma dp_table_spec energy H W :
  shape energy H W → 1 ≤ H → 1 ≤ W →
  ∃ cost back, dp_table add ltb junk energy = Ok (cost, back) ∧
               dp_done add ltb energy H W cost back.
Proof.
  intros He HH HW. pose proof He as (Hrows & Hcols & _ & Hlen & _).
  destruct (mat_create_spec junk H W) as (back0 & Hcreate & Hb0); [lia..|].
  unfold dp_table. rewrite Hrows, Hcols, Hcreate, (clone_eq energy H W) by done.
  simpl.
  destruct (for_range_inv (fun i => dp_inv add ltb energy H W i 0) 1 H
              (fun i => for_range 0 W (fun j => dp_step add ltb W i j))
              (energy, back0))
    as ([cost back] & Hloop & Hc & Hb & Hdone & Htodo).
  - lia.
  - split; [done|]. split; [done|]. split; [|done].
    intros i' j'. unfold processed. lia.
  - intros i s Hi Hs. by apply dp_row_inv.
  - exists cost, back. split; [done|]. split; [done|]. split; [done|].
    simpl in *. split.
    + intros j. apply Htodo. unfold processed. lia.
    + intros i j Hi Hj. apply Hdone; [|done]. unfold processed. lia.
Qed.

(** The offset stored for a cell stays inside the row above and points at the
    cost that was added. *)
Lemma cell_ok_link energy cost back H W i j :
  shape energy H W → 0 ≤ j < W → cell_ok add ltb energy cost back i j →
  ∃ e mc off, mat_at energy i j = Ok e ∧ mat_at cost i j = Ok (add e mc) ∧
    mat_at back i j = Ok off ∧ -1 ≤ off ≤ 1 ∧ 0 ≤ j + off < W ∧
    mat_at cost (i - 1) (j + off) = Ok mc.
Proof.
  intros He Hj (e & mc & off & Hat_e & Hcell & Hat_c & Hat_b).
  assert (cols energy = W) as HW by apply He. rewrite HW in Hcell.
  exists e, mc, off. do 3 (split; [done|]).
  apply dp_cell_inv in Hcell as (c & Hc & Hcases).
  destruct Hcases as [(-> & -> & _)|[(-> & ? & ? & _)|[(-> & ? & ? & _)|
    (-> & ? & ? & ? & _)]]].
  - rewrite Z.add_0_r. split; [lia|]. split; [lia|done].
  - replace (j + -1) with (j - 1) by lia. split; [lia|]. split; [lia|done].
  - split; [lia|]. split; [lia|done].
  - split; [lia|]. split; [lia|done].
Qed.

(** *** The backtracking loop *)

Lemma min_scan_range l i best smallest :
  0 ≤ best < i →
  0 ≤ min_scan ltb l i best smallest < i + Z.of_nat (length l).
Proof.
  revert i best smallest. induction l as [|x l IH]; intros i best smallest Hb.
  - simpl. lia.
  - simpl. destruct (ltb x smallest).
    + specialize (IH (i + 1) i x). lia.
    + specialize (IH (i + 1) best smallest). lia.
Qed.

Lemma min_element_range l :
  l ≠ [] → 0 ≤ min_element ltb l < Z.of_nat (length l).
Proof.
  destruct l as [|x l]; [done|]. intros _. simpl.
  pose proof (min_scan_range l 1 0 x). lia.
Qed.

Lemma back_step_inv energy cost back H W jstar k seam :
  shape energy H W → dp_done add ltb energy H W cost back → 0 ≤ k ≤ H - 2 →
  seam_from back H W jstar (k + 1) seam →
  ∃ seam', back_step back k seam = Ok seam' ∧
           seam_from back H W jstar (k - 1 + 1) seam'.
Proof.
  intros He (_ & _ & _ & Hcells) Hk (Hlen & Hlast & Hin & Hlink).
  destruct (Hin (k + 1)) as (s & Hs & Hs_range); [lia|].
  destruct (cell_ok_link energy cost back H W (k + 1) s)
    as (e & mc & off & _ & _ & Hoff & _ & Hrange & _); [done..| |].
  { apply Hcells; [lia|done]. }
  destruct (vec_set_spec seam k (s + off)) as (seam' & Hset & Hlen' & Hat);
    [lia|].
  exists seam'. split.
  { unfold back_step. rewrite Hs. simpl. by rewrite Hoff. }
  split; [lia|]. split; [|split].
  - rewrite Hat. by rewrite decide_False by lia.
  - intros i Hi. rewrite Hat. destruct (decide (i = k)) as [->|Hne].
    + by exists (s + off).
    + apply Hin. lia.
  - intros i Hi. rewrite !Hat. rewrite decide_False by lia.
    destruct (decide (i = k)) as [->|Hne].
    + by exists s, off.
    + apply Hlink. lia.
Qed.

(** The whole of [findSeam] on a field with at least one row and one
    column. *)
Lemma findSeam_spec energy H W :
  shape energy H W → 1 ≤ H → 1 ≤ W →
  ∃ cost back last seam,
    dp_table add ltb junk energy = Ok (cost, back) ∧
    dp_done add ltb energy H W cost back ∧
    mat_ptr cost (H - 1) = Ok last ∧ Z.of_nat (length last) = W ∧
    findSeam add ltb junk energy = Ok seam ∧
    seam_from back H W (min_element ltb last) 0 seam.
Proof.
  intros He HH HW.
  destruct (dp_table_spec energy H W) as (cost & back & Hdp & Hdone);
    [done..|].
  pose proof Hdone as (Hc & Hb & _).
  destruct (mat_ptr_in cost H W (H - 1)) as (last & Hlast & Hlen); [done|lia|].
  pose proof (min_element_range last) as Hjstar.
  set (jstar := min_element ltb last) in *.
  destruct (vec_set_spec (replicate (Z.to_nat H) 0) (H - 1) jstar)
    as (seam0 & Hset & Hlen0 & Hat0).
  { rewrite length_replicate. lia. }
  rewrite length_replicate in Hlen0.
  destruct (for_down_inv (fun k => seam_from back H W jstar (k + 1))
              (H - 2) 0 (back_step back) seam0) as (seam & Hloop & Hseam).
  - lia.
  - split; [lia|]. split; [|split].
    + rewrite Hat0. by rewrite decide_True.
    + intros i Hi. exists jstar. rewrite Hat0, decide_True by lia.
      split; [done|]. rewrite <- Hlen. apply Hjstar.
      intros ->. simpl in Hlen. lia.
    + intros i Hi. lia.
  - intros k seam1 Hk Hseam1.
    apply (back_step_inv energy cost back); [done|done|lia|done].
  - exists cost, back, last, seam. do 4 (split; [done|]).
    split; [|by replace (0 - 1 + 1) with 0 in Hseam by lia].
    unfold findSeam. rewrite Hdp. simpl.
    assert (rows energy = H) as -> by apply He.
    assert (cols energy = W) as -> by apply He.
    rewrite Hlast. simpl. rewrite vec_range_all by done. simpl.
    fold jstar. rewrite Hset. done.
Qed.


(** The seam is a vertical path of the grid. *)
Lemma seam_from_path energy cost back H W jstar seam :
  shape energy H W → dp_done add ltb energy H W cost back →
  seam_from back H W jstar 0 seam → vertical_path H W seam.
Proof.
  intros He (_ & _ & _ & Hcells) (Hlen & _ & Hin & Hlink).
  split; [done|]. split.
  - intros i c Hc. pose proof (vec_at_range _ _ _ Hc).
    destruct (Hin i) as (c' & Hc' & ?); [lia|]. by same_read.
  - intros i c c' Hc Hc'.
    pose proof (vec_at_range _ _ _ Hc). pose proof (vec_at_range _ _ _ Hc').
    destruct (Hlink i) as (s & b & Hs & Hb & Hsb); [lia|].
    destruct (Hin (i + 1)) as (s' & Hs' & Hs_range); [lia|].
    assert (s' = s) as -> by congruence.
    destruct (cell_ok_link energy cost back H W (i + 1) s)
      as (e & mc & off & _ & _ & Hoff & ? & _);
      [done..|apply Hcells; [lia|done]|].
    assert (c' = s) as -> by congruence.
    assert (c = s + b) as -> by congruence.
    assert (b = off) as -> by congruence. lia.
Qed.

Lemma path_energy_S energy p k :
  path_energy add energy p (Datatypes.S k) =
    s ← path_energy add energy p k;
    c ← vec_at p (Z.of_nat k + 1);
    e ← mat_at energy (Z.of_nat k + 1) c;
    Ok (add e s).
Proof.
  cbn [path_energy]. by replace (Z.of_nat (Datatypes.S k)) with (Z.of_nat k + 1) by lia.
Qed.

(** The energy of the seam down to a row is the cost of its cell in that
    row. *)
Lemma seam_from_energy energy cost back H W jstar seam (k : nat) :
  shape energy H W → dp_done add ltb energy H W cost back →
  seam_from back H W jstar 0 seam → Z.of_nat k < H →
  ∃ c m, vec_at seam (Z.of_nat k) = Ok c ∧
         mat_at cost (Z.of_nat k) c = Ok m ∧
         path_energy add energy seam k = Ok m.
Proof.
  intros He (Hc & _ & Hrow0 & Hcells) (Hlen & _ & Hin & Hlink).
  induction k as [|k IH]; intros Hk.
  - destruct (Hin 0) as (c & Hat & Hrange); [lia|].
    destruct (mat_at_in energy H W 0 c) as [m Hm]; [done|lia|done|].
    exists c, m. split; [done|]. rewrite Hrow0. split; [done|].
    simpl. rewrite Hat. done.
  - destruct IH as (c & m & Hat & Hm & Hpath); [lia|].
    replace (Z.of_nat (Datatypes.S k)) with (Z.of_nat k + 1) by lia.
    destruct (Hlink (Z.of_nat k)) as (s & b & Hs & Hb & Hsb); [lia|].
    destruct (Hin (Z.of_nat k + 1)) as (s' & Hs' & Hs_range); [lia|].
    assert (s' = s) as -> by congruence.
    destruct (cell_ok_link energy cost back H W (Z.of_nat k + 1) s)
      as (e & mc & off & Hat_e & Hat_c & Hoff & _ & _ & Hmc);
      [done..|apply Hcells; [lia|done]|].
    replace (Z.of_nat k + 1 - 1) with (Z.of_nat k) in Hmc by lia.
    assert (b = off) as -> by congruence.
    assert (c = s + off) as -> by congruence.
    assert (mc = m) as -> by congruence.
    exists s, (add e m). split; [done|]. split; [done|].
    rewrite path_energy_S, Hpath. simpl. rewrite Hs. simpl.
    by rewrite Hat_e.
Qed.


(** Every vertical path has an energy. *)
Lemma path_energy_defined (energy : Mat E) H W p (k : nat) :
  shape energy H W → vertical_path H W p → Z.of_nat k < H →
  ∃ s, path_energy add energy p k = Ok s.
Proof.
  intros He (Hlen & Hin & _).
  assert (∀ i, 0 ≤ i < H → ∃ c e, vec_at p i = Ok c ∧ mat_at energy i c = Ok e)
    as Hcell.
  { intros i Hi. destruct (vec_at_in p i) as [c Hc]; [lia|].
    destruct (mat_at_in energy H W i c) as [e Hat]; [done|done|by eapply Hin|].
    by exists c, e. }
  induction k as [|k IH]; intros Hk.
  - destruct (Hcell 0) as (c & e & Hc & Hat); [lia|].
    exists e. simpl. by rewrite Hc.
  - destruct IH as [s Hs]; [lia|].
    destruct (Hcell (Z.of_nat k + 1)) as (c & e & Hc & Hat); [lia|].
    exists (add e s). rewrite path_energy_S, Hs. simpl. rewrite Hc. simpl.
    by rewrite Hat.
Qed.


(** [findSeam] on a field without rows or without columns: no check, one
    harmless case, and accesses outside the seam or the tables otherwise. *)
Lemma findSeam_degenerate energy H W :
  shape energy H W → H < 1 ∨ W < 1 →
  findSeam add ltb junk energy = if decide (H = 1) then Ok [0] else Undefined.
Proof.
  intros He Hdeg. pose proof He as (Hrows & Hcols & HW & Hlen & _).
  destruct (mat_create_spec junk H W) as (back0 & Hcreate & Hb0); [lia..|].
  assert (dp_table add ltb junk energy = Ok (mkMat 0 0 [], back0)) as Hdp.
  { unfold dp_table.
    rewrite Hrows, Hcols, Hcreate, (clone_no_element energy H W) by done.
    simpl. destruct (decide (H = 0)) as [->|HH]; [by apply for_range_empty|].
    assert (W = 0) as -> by lia.
    destruct (for_range_inv (fun _ s => s = (mkMat 0 0 [], back0)) 1 H
                (fun i => for_range 0 0 (fun j => dp_step add ltb 0 i j))
                (mkMat 0 0 [], back0)) as (s & -> & ->); [lia|done| |done].
    intros i s _ ->. eexists. by rewrite for_range_empty. }
  unfold findSeam. rewrite Hdp, Hrows, Hcols. simpl.
  rewrite mat_ptr_no_rows by done.
  destruct (decide (H = 1)) as [->|H1].
  - assert (W = 0) as -> by lia. done.
  - by rewrite decide_False by lia.
Qed.

(** *** The order of the samples *)

Hypothesis ltb_asym : ∀ a b, ltb a b = true → ltb b a = false.
Hypothesis ltb_negtrans :
  ∀ a b c, ltb a b = false → ltb b c = false → ltb a c = false.
Hypothesis add_mono :
  ∀ e a b, ltb a b = false → ltb (add e a) (add e b) = false.

Lemma ltb_irrefl a : ltb a a = false.
Proof. destruct (ltb a a) eqn:Haa; [|done]. by rewrite (ltb_asym a a) in Haa. Qed.

Lemma ltb_lt_le a b c : ltb a b = true → ltb c b = false → ltb a c = true.
Proof.
  intros Hab Hcb. destruct (ltb a c) eqn:Hac; [done|].
  by rewrite (ltb_negtrans a c b) in Hab.
Qed.

Lemma ltb_le_lt a b c : ltb b a = false → ltb b c = true → ltb a c = true.
Proof.
  intros Hba Hbc. destruct (ltb a c) eqn:Hac; [done|].
  by rewrite (ltb_negtrans b a c) in Hbc.
Qed.

Lemma ltb_trans a b c : ltb a b = true → ltb b c = true → ltb a c = true.
Proof. intros Hab Hbc. eapply ltb_lt_le; [done|]. by apply ltb_asym. Qed.

(** The predecessor that [dp_cell] chose is a cheapest one. *)
Lemma dp_cell_min cost H W i j mc off :
  shape cost H W → dp_cell ltb cost W i j = Ok (mc, off) →
  is_min ltb cost i j mc.
Proof.
  intros Hs Hcell d y Hd Hy.
  apply dp_cell_inv in Hcell as (c & Hc & Hcases).
  unfold left_not_below, right_not_below in Hcases.
  pose proof (mat_at_range _ _ _ _ _ _ Hs Hy) as [_ Hrange].
  pose proof (mat_at_range _ _ _ _ _ _ Hs Hc) as [_ Hrange'].
  assert (d = -1 ∨ d = 0 ∨ d = 1) as [-> | [-> | ->]] by lia.
  - replace (j + -1) with (j - 1) in * by lia.
    destruct Hcases as [(_ & -> & HL & _)|[(_ & _ & Hl & _)|
      [(_ & _ & _ & Hlt & HL)|(_ & _ & _ & _ & l & Hl & _ & Hlt)]]].
    + destruct HL as (l & Hl & Hlc); [lia|]. same_read. done.
    + same_read. apply ltb_irrefl.
    + destruct HL as (l & Hl & Hlc); [lia|]. same_read.
      apply ltb_asym. by eapply ltb_lt_le.
    + same_read. by apply ltb_asym.
  - rewrite Z.add_0_r in *. same_read.
    destruct Hcases as [(_ & -> & _)|[(_ & _ & _ & Hlt & _)|
      [(_ & _ & _ & Hlt & _)|(_ & _ & _ & _ & l & _ & Hlc & Hlt)]]].
    + apply ltb_irrefl.
    + by apply ltb_asym.
    + by apply ltb_asym.
    + apply ltb_asym. by eapply ltb_trans.
  - destruct Hcases as [(_ & -> & _ & HR)|[(_ & _ & _ & _ & HR)|
      [(_ & _ & Hr & _)|(_ & _ & _ & Hr & _)]]].
    + destruct HR as (r & Hr & Hrc); [lia|]. same_read. done.
    + destruct HR as (r & Hr & Hrc); [lia|]. same_read. done.
    + same_read. apply ltb_irrefl.
    + same_read. apply ltb_irrefl.
Qed.

(** The tie-break: straight when the straight predecessor is a cheapest one,
    never right when the left predecessor is a cheapest one. *)
Lemma dp_cell_tie_break cost H W i j mc off c :
  shape cost H W → dp_cell ltb cost W i j = Ok (mc, off) →
  mat_at cost (i - 1) j = Ok c →
  (is_min ltb cost i j c → off = 0) ∧
  (∀ l, mat_at cost (i - 1) (j - 1) = Ok l → is_min ltb cost i j l → off ≠ 1).
Proof.
  intros Hs Hcell Hc.
  apply dp_cell_inv in Hcell as (c' & Hc' & Hcases).
  assert (c' = c) as -> by congruence.
  unfold left_not_below, right_not_below in Hcases.
  split.
  - intros Hmin.
    destruct Hcases as [(-> & _)|[(_ & _ & Hl & Hlt & _)|
      [(_ & _ & Hr & Hlt & _)|(_ & _ & _ & _ & l & Hl & Hlt & _)]]]; [done|..].
    + replace (j - 1) with (j + -1) in Hl by lia.
      by rewrite (Hmin (-1) mc) in Hlt by (done || lia).
    + by rewrite (Hmin 1 mc) in Hlt by (done || lia).
    + replace (j - 1) with (j + -1) in Hl by lia.
      by rewrite (Hmin (-1) l) in Hlt by (done || lia).
  - intros l Hl Hmin.
    pose proof (mat_at_range _ _ _ _ _ _ Hs Hl) as [_ Hrange].
    destruct Hcases as [(-> & _)|[(-> & _)|[(_ & _ & Hr & Hlt & HL)|
      (_ & _ & _ & Hr & l' & Hl' & _ & Hlt)]]]; [done..| |].
    + destruct HL as (l' & Hl' & Hlc); [lia|].
      assert (l' = l) as -> by congruence.
      assert (ltb mc c = false); [|congruence].
      eapply ltb_negtrans; [|exact Hlc]. by apply (Hmin 1 mc); [lia|].
    + same_read. by rewrite (Hmin 1 mc) in Hlt by (done || lia).
Qed.

(** *** [min_element] returns the first smallest element *)

Lemma min_scan_spec pre l best smallest :
  vec_at pre best = Ok smallest →
  (∀ k y, vec_at pre k = Ok y → ltb y smallest = false) →
  (∀ k y, k < best → vec_at pre k = Ok y → ltb smallest y = true) →
  ∃ m,
    vec_at (pre ++ l)
      (min_scan ltb l (Z.of_nat (length pre)) best smallest) = Ok m ∧
    (∀ k y, vec_at (pre ++ l) k = Ok y → ltb y m = false) ∧
    (∀ k y, k < min_scan ltb l (Z.of_nat (length pre)) best smallest →
       vec_at (pre ++ l) k = Ok y → ltb m y = true).
Proof.
  revert pre best smallest.
  induction l as [|x l IH]; intros pre best smallest Hbest Hall Hfirst.
  - rewrite app_nil_r. by exists smallest.
  - rewrite (cons_middle x pre l), app_assoc. simpl.
    replace (Z.of_nat (length pre) + 1) with (Z.of_nat (length (pre ++ [x])))
      by (rewrite length_app; simpl; lia).
    pose proof (vec_at_range _ _ _ Hbest) as Hbest_range.
    destruct (ltb x smallest) eqn:Hx; apply IH.
    + apply vec_at_snoc. by right.
    + intros k y [Hy|[_ ->]]%vec_at_snoc; [|apply ltb_irrefl].
      destruct (ltb y x) eqn:Hyx; [|done].
      pose proof (ltb_trans _ _ _ Hyx Hx) as Hys.
      by rewrite (Hall k y Hy) in Hys.
    + intros k y Hk [Hy|[-> _]]%vec_at_snoc; [|lia].
      eapply ltb_lt_le; [done|]. by eapply Hall.
    + apply vec_at_snoc. by left.
    + intros k y [Hy|[_ ->]]%vec_at_snoc; [by eapply Hall|done].
    + intros k y Hk [Hy|[-> _]]%vec_at_snoc; [by eapply Hfirst|lia].
Qed.

Lemma min_element_spec l :
  l ≠ [] →
  ∃ m, vec_at l (min_element ltb l) = Ok m ∧
    (∀ k y, vec_at l k = Ok y → ltb y m = false) ∧
    (∀ k y, k < min_element ltb l → vec_at l k = Ok y → ltb m y = true).
Proof.
  destruct l as [|x l]; [done|]. intros _.
  apply (min_scan_spec [x] l 0 x).
  - done.
  - intros k y Hy. pose proof (vec_at_range _ _ _ Hy). simpl in *.
    assert (k = 0) as -> by lia. cbv in Hy. simplify_eq. apply ltb_irrefl.
  - intros k y Hk Hy. pose proof (vec_at_range _ _ _ Hy). lia.
Qed.

(** *** No vertical path is cheaper than the cost of the cell it ends in *)

Lemma path_lower_bound energy cost back H W p (k : nat) s :
  shape energy H W → dp_done add ltb energy H W cost back →
  vertical_path H W p → Z.of_nat k < H →
  path_energy add energy p k = Ok s →
  ∃ c m, vec_at p (Z.of_nat k) = Ok c ∧ mat_at cost (Z.of_nat k) c = Ok m ∧
         ltb s m = false.
Proof.
  intros He (Hc & _ & Hrow0 & Hcells) (Hlen & Hin & Hadj).
  assert (cols energy = W) as HW by apply He.
  revert s. induction k as [|k IH]; intros s Hk Hpath.
  - simpl in Hpath. apply bind_Ok in Hpath as (c & Hat & Hs).
    exists c, s. split; [done|]. rewrite Hrow0. split; [done|].
    apply ltb_irrefl.
  - rewrite path_energy_S in Hpath.
    apply bind_Ok in Hpath as (s' & Hpath & Hrest).
    apply bind_Ok in Hrest as (c & Hat & Hrest).
    apply bind_Ok in Hrest as (e & Hat_e & [= <-]).
    destruct (IH s') as (c' & m' & Hat' & Hm' & Hle); [lia|done|].
    replace (Z.of_nat (Datatypes.S k)) with (Z.of_nat k + 1) by lia.
    destruct (Hcells (Z.of_nat k + 1) c)
      as (e' & mc & off & Hat_e' & Hcell & Hat_c & _); [lia|by eapply Hin|].
    assert (e' = e) as -> by congruence.
    exists c, (add e mc). split; [done|]. split; [done|].
    apply add_mono. apply (ltb_negtrans _ m'); [done|].
    rewrite HW in Hcell.
    apply (dp_cell_min cost H W _ _ _ _ Hc Hcell (c' - c)).
    + pose proof (Hadj _ _ _ Hat' Hat). lia.
    + replace (Z.of_nat k + 1 - 1) with (Z.of_nat k) by lia.
      by replace (c + (c' - c)) with c' by lia.
Qed.

End SolverFacts.

(** ** The seam does not depend on the uninitialised memory *)

Section SolverDeterminism.
Context {E : Type}.
Variable add : E → E → E.
Variable ltb : E → E → bool.

Lemma dp_done_agree (energy : Mat E) H W c1 b1 c2 b2 (k : nat) :
  shape energy H W →
  dp_done add ltb energy H W c1 b1 → dp_done add ltb energy H W c2 b2 →
  Z.of_nat k < H →
  (∀ j, mat_at c1 (Z.of_nat k) j = mat_at c2 (Z.of_nat k) j) ∧
  (1 ≤ Z.of_nat k → ∀ j, 0 ≤ j < W →
     mat_at b1 (Z.of_nat k) j = mat_at b2 (Z.of_nat k) j).
Proof.
  intros He (Hc1 & _ & Hrow1 & Hcells1) (Hc2 & _ & Hrow2 & Hcells2).
  induction k as [|k IH]; intros Hk.
  - split; [|lia]. intros j. simpl. by rewrite Hrow1, Hrow2.
  - destruct IH as [IH _]; [lia|].
    replace (Z.of_nat (Datatypes.S k)) with (Z.of_nat k + 1) by lia.
    assert (∀ j, 0 ≤ j < W →
      mat_at c1 (Z.of_nat k + 1) j = mat_at c2 (Z.of_nat k + 1) j ∧
      mat_at b1 (Z.of_nat k + 1) j = mat_at b2 (Z.of_nat k + 1) j) as Hboth.
    { intros j Hj.
      destruct (Hcells1 (Z.of_nat k + 1) j)
        as (e1 & mc1 & off1 & He1 & Hcell1 & -> & ->); [lia|done|].
      destruct (Hcells2 (Z.of_nat k + 1) j)
        as (e2 & mc2 & off2 & He2 & Hcell2 & -> & ->); [lia|done|].
      rewrite (dp_cell_ext ltb c1 c2) in Hcell1.
      - assert (e2 = e1) as -> by congruence.
        by assert ((mc2, off2) = (mc1, off1)) as [= -> ->] by congruence.
      - intros j'. by replace (Z.of_nat k + 1 - 1) with (Z.of_nat k) by lia. }
    split.
    + intros j. destruct (decide (0 ≤ j < W)) as [Hj|Hj].
      * by apply Hboth.
      * by rewrite (mat_at_out c1 H W), (mat_at_out c2 H W) by (done || lia).
    + intros _ j Hj. by apply Hboth.
Qed.

Lemma seam_from_agree (b1 b2 : Mat Z) H W jstar s1 s2 :
  (∀ i j, 1 ≤ i < H → 0 ≤ j < W → mat_at b1 i j = mat_at b2 i j) →
  seam_from b1 H W jstar 0 s1 → seam_from b2 H W jstar 0 s2 → s1 = s2.
Proof.
  intros Hb (Hlen1 & Hlast1 & Hin1 & Hlink1) (Hlen2 & Hlast2 & Hin2 & Hlink2).
  assert (∀ d : nat, 0 ≤ H - 1 - Z.of_nat d →
    vec_at s1 (H - 1 - Z.of_nat d) = vec_at s2 (H - 1 - Z.of_nat d)) as Hdown.
  { induction d as [|d IH]; intros Hd.
    - rewrite Z.sub_0_r. by rewrite Hlast1, Hlast2.
    - destruct (Hlink1 (H - 1 - Z.of_nat (Datatypes.S d)))
        as (x1 & y1 & Hx1 & Hy1 & ->); [lia|].
      destruct (Hlink2 (H - 1 - Z.of_nat (Datatypes.S d)))
        as (x2 & y2 & Hx2 & Hy2 & ->); [lia|].
      replace (H - 1 - Z.of_nat (Datatypes.S d) + 1)
        with (H - 1 - Z.of_nat d) in * by lia.
      rewrite IH in Hx1 by lia. assert (x2 = x1) as -> by congruence.
      destruct (Hin1 (H - 1 - Z.of_nat d)) as (x & Hx & Hrange); [lia|].
      rewrite IH in Hx by lia. assert (x = x1) as -> by congruence.
      rewrite Hb in Hy1 by lia. by assert (y2 = y1) as -> by congruence. }
  apply vec_at_ext. intros k.
  destruct (decide (0 ≤ k < H)) as [Hk|Hk].
  - specialize (Hdown (Z.to_nat (H - 1 - k))).
    replace (H - 1 - Z.of_nat (Z.to_nat (H - 1 - k))) with k in Hdown by lia.
    apply Hdown. lia.
  - rewrite !vec_at_out by lia. done.
Qed.

Lemma findSeam_junk (junk1 junk2 : Z → Z → Z) (energy : Mat E) H W :
  shape energy H W → 1 ≤ H → 1 ≤ W →
  findSeam add ltb junk1 energy = findSeam add ltb junk2 energy.
Proof.
  intros He HH HW.
  destruct (findSeam_spec add ltb junk1 energy H W)
    as (c1 & b1 & l1 & s1 & _ & Hd1 & Hl1 & _ & -> & Hs1); [done..|].
  destruct (findSeam_spec add ltb junk2 energy H W)
    as (c2 & b2 & l2 & s2 & _ & Hd2 & Hl2 & _ & -> & Hs2); [done..|].
  destruct (dp_done_agree energy H W c1 b1 c2 b2 (Z.to_nat (H - 1)))
    as [Hlast _]; [done..|lia|].
  replace (Z.of_nat (Z.to_nat (H - 1))) with (H - 1) in Hlast by lia.
  assert (l1 = l2) as ->.
  { apply vec_at_ext. intros k. specialize (Hlast k).
    unfold mat_at in Hlast. by rewrite Hl1, Hl2 in Hlast. }
  f_equal. apply (seam_from_agree b1 b2 H W (min_element ltb l2)); [|done..].
  intros i j Hi Hj.
  destruct (dp_done_agree energy H W c1 b1 c2 b2 (Z.to_nat i))
    as [_ Hback]; [done..|lia|].
  replace (Z.of_nat (Z.to_nat i)) with i in Hback by lia.
  apply Hback; [lia|done].
Qed.

End SolverDeterminism.


(** ** The loops of [removeSeam] *)

Section RemoverFacts.
Variable junk : Z → Z → Vec3b.

Lemma copy_left_inv (image out0 : Mat Vec3b) H W i s :
  shape image H W → shape out0 H (W - 1) → 0 ≤ i < H → 0 ≤ s < W →
  ∃ out, for_range 0 s (copy_left image i) out0 = Ok out ∧
    shape out H (W - 1) ∧
    (∀ i' j', i' ≠ i ∨ s ≤ j' → mat_at out i' j' = mat_at out0 i' j') ∧
    (∀ j', 0 ≤ j' < s → mat_at out i j' = mat_at image i j').
Proof.
  intros Him Hout Hi Hs.
  destruct (for_range_inv (fun j out =>
      shape out H (W - 1) ∧
      (∀ i' j', i' ≠ i ∨ j ≤ j' → mat_at out i' j' = mat_at out0 i' j') ∧
      (∀ j', 0 ≤ j' < j → mat_at out i j' = mat_at image i j'))
    0 s (copy_left image i) out0) as (out & Hloop & Hsh & Hframe & Hrow).
  - lia.
  - split; [done|]. split; [done|]. intros j' ?. lia.
  - intros j out Hj (Hsh' & Hframe' & Hrow').
    destruct (mat_at_in image H W i j) as [px Hpx]; [done|lia..|].
    destruct (mat_set_spec out H (W - 1) i j px) as (out' & Hset & ? & Hat);
      [done|lia..|].
    exists out'. split; [unfold copy_left; by rewrite Hpx|].
    split; [done|]. split.
    + intros i' j' Hne. rewrite Hat, decide_False by lia.
      apply Hframe'. lia.
    + intros j' Hj'. rewrite Hat. destruct (decide (j' = j)) as [->|Hne].
      * by rewrite decide_True.
      * rewrite decide_False by lia. apply Hrow'. lia.
  - exists out. done.
Qed.

Lemma copy_right_inv (image out0 : Mat Vec3b) H W i s :
  shape image H W → shape out0 H (W - 1) → 0 ≤ i < H → 0 ≤ s < W →
  ∃ out, for_range (s + 1) W (copy_right image i) out0 = Ok out ∧
    shape out H (W - 1) ∧
    (∀ i' j', i' ≠ i ∨ j' < s → mat_at out i' j' = mat_at out0 i' j') ∧
    (∀ j', s ≤ j' < W - 1 → mat_at out i j' = mat_at image i (j' + 1)).
Proof.
  intros Him Hout Hi Hs.
  destruct (for_range_inv (fun j out =>
      shape out H (W - 1) ∧
      (∀ i' j', i' ≠ i ∨ j' < s ∨ j - 1 ≤ j' →
         mat_at out i' j' = mat_at out0 i' j') ∧
      (∀ j', s ≤ j' < j - 1 → mat_at out i j' = mat_at image i (j' + 1)))
    (s + 1) W (copy_right image i) out0) as (out & Hloop & Hsh & Hframe & Hrow).
  - lia.
  - split; [done|]. split; [done|]. intros j' ?. lia.
  - intros j out Hj (Hsh' & Hframe' & Hrow').
    destruct (mat_at_in image H W i j) as [px Hpx]; [done|lia..|].
    destruct (mat_set_spec out H (W - 1) i (j - 1) px)
      as (out' & Hset & ? & Hat); [done|lia..|].
    exists out'. split; [unfold copy_right; by rewrite Hpx|].
    split; [done|]. split.
    + intros i' j' Hne. rewrite Hat, decide_False by lia.
      apply Hframe'. lia.
    + intros j' Hj'. rewrite Hat.
      destruct (decide (j' = j - 1)) as [->|Hne].
      * rewrite decide_True by done. by replace (j - 1 + 1) with j by lia.
      * rewrite decide_False by lia. apply Hrow'. lia.
  - exists out. split; [done|]. split; [done|]. split; [|done].
    intros i' j' Hne. apply Hframe. lia.
Qed.

Lemma remove_row_spec (image out0 : Mat Vec3b) seam H W i s :
  shape image H W → shape out0 H (W - 1) → 0 ≤ i < H →
  vec_at seam i = Ok s → 0 ≤ s < W →
  ∃ out, remove_row image seam W i out0 = Ok out ∧
    shape out H (W - 1) ∧
    (∀ i' j', i' ≠ i → mat_at out i' j' = mat_at out0 i' j') ∧
    row_removed image out W i s.
Proof.
  intros Him Hout Hi Hseam Hs.
  destruct (copy_left_inv image out0 H W i s)
    as (out1 & Hloop1 & Hsh1 & Hframe1 & Hrow1); [done..|].
  destruct (copy_right_inv image out1 H W i s)
    as (out2 & Hloop2 & Hsh2 & Hframe2 & Hrow2); [done..|].
  exists out2. split.
  { unfold remove_row. rewrite Hseam. simpl. by rewrite Hloop1. }
  split; [done|]. split.
  - intros i' j' Hne. rewrite Hframe2 by lia. apply Hframe1. lia.
  - intros j Hj. unfold shifted. case_decide.
    + rewrite Hframe2 by lia. apply Hrow1. lia.
    + apply Hrow2. lia.
Qed.

Lemma removeSeam_spec (image : Mat Vec3b) seam H W :
  shape image H W → 1 ≤ W →
  (∀ i, 0 ≤ i < H → ∃ s, vec_at seam i = Ok s ∧ 0 ≤ s < W) →
  ∃ out, removeSeam junk image seam = Ok out ∧ shape out H (W - 1) ∧
    ∀ i s, 0 ≤ i < H → vec_at seam i = Ok s → row_removed image out W i s.
Proof.
  intros Him HW Hseam. pose proof Him as (Hrows & Hcols & _ & Hlen & _).
  destruct (mat_create_spec junk H (W - 1)) as (out0 & Hcreate & Hout0);
    [lia..|].
  destruct (for_range_inv (fun i out =>
      shape out H (W - 1) ∧
      ∀ i' s, 0 ≤ i' < i → vec_at seam i' = Ok s →
              row_removed image out W i' s)
    0 H (remove_row image seam W) out0) as (out & Hloop & Hsh & Hrows').
  - lia.
  - split; [done|]. intros i' s ?. lia.
  - intros i out Hi (Hsh & Hdone).
    destruct (Hseam i) as (s & Hs & Hs_range); [done|].
    destruct (remove_row_spec image out seam H W i s)
      as (out' & Hrow & Hsh' & Hframe & Hnew); [done..|].
    exists out'. split; [done|]. split; [done|].
    intros i' s' Hi' Hs'. destruct (decide (i' = i)) as [->|Hne].
    + by assert (s' = s) as -> by congruence.
    + intros j Hj. rewrite Hframe by done. apply Hdone; [lia|done..].
  - exists out. split; [|split; [done|]].
    + unfold removeSeam. rewrite Hrows, Hcols, Hcreate. done.
    + intros i s Hi. by apply Hrows'.
Qed.

(** A row whose seam entry is missing or outside the image: an access out
    of range. *)
Lemma remove_row_undefined (image out0 : Mat Vec3b) seam H W i :
  shape image H W → shape out0 H (W - 1) → 1 ≤ W → 0 ≤ i < H →
  (∀ s, vec_at seam i = Ok s → ¬ (0 ≤ s < W)) →
  remove_row image seam W i out0 = Undefined.
Proof.
  intros Him Hout HW Hi Hbad. unfold remove_row.
  destruct (vec_at seam i) as [s|e|] eqn:Hs; simpl; [| |done].
  2: { by apply vec_at_raise in Hs. }
  specialize (Hbad s eq_refl).
  destruct (decide (s < 0)) as [Hneg|Hpos].
  - rewrite for_range_empty by lia. simpl.
    rewrite for_range_first by lia. unfold copy_right.
    destruct (decide (s + 1 = 0)) as [Hs0|Hs0].
    + destruct (mat_at_in image H W i (s + 1)) as [px ->]; [done|lia..|].
      simpl. by rewrite (mat_set_out out0 H (W - 1)) by (done || lia).
    + by rewrite (mat_at_out image H W) by (done || lia).
  - rewrite (for_range_split 0 (W - 1) s) by lia.
    destruct (copy_left_inv image out0 H W i (W - 1))
      as (out1 & -> & Hout1 & _); [done|done|lia..|]. simpl.
    rewrite for_range_first by lia. unfold copy_left.
    destruct (mat_at_in image H W i (W - 1)) as [px ->]; [done|lia..|].
    simpl. by rewrite (mat_set_out out1 H (W - 1)) by (done || lia).
Qed.

(** A seam without an entry in [0, W−1] for some row: an access out of
    range. *)
Lemma removeSeam_undefined (image : Mat Vec3b) seam H W i :
  shape image H W → 1 ≤ W → 0 ≤ i < H →
  (∀ s, vec_at seam i = Ok s → ¬ (0 ≤ s < W)) →
  removeSeam junk image seam = Undefined.
Proof.
  intros Him HW Hi Hbad. pose proof Him as (Hrows & Hcols & _).
  destruct (mat_create_spec junk H (W - 1)) as (out0 & Hcreate & Hout0);
    [lia..|].
  unfold removeSeam. rewrite Hrows, Hcols, Hcreate. simpl.
  apply (for_range_undefined (fun _ out => shape out H (W - 1))); [done| |].
  - intros k out Hk Hout.
    destruct (vec_at seam k) as [s|e|] eqn:Hs.
    + destruct (decide (0 ≤ s < W)) as [Hin|Hout_of_range].
      * left. destruct (remove_row_spec image out seam H W k s)
          as (out' & ? & ? & _); [done..|]. by exists out'.
      * right. apply (remove_row_undefined image out seam H W); [done..|].
        intros s' Hs'. by assert (s' = s) as -> by congruence.
    + by apply vec_at_raise in Hs.
    + right. unfold remove_row. by rewrite Hs.
  - exists i. split; [done|]. intros out Hout.
    by apply (remove_row_undefined image out seam H W).
Qed.


End RemoverFacts.

(** ** The carving loop *)

Section DriverFacts.
Context {G E : Type}.
Variable add : E → E → E.
Variable ltb : E → E → bool.
Variable absE : E → E.
Variable cvtColor : Mat Vec3b → outcome (Mat G).
Variable Sobel : Mat G → Z → Z → outcome (Mat E).
Variable junk_int : Z → Z → Z.
Variable junk_px : Z → Z → Vec3b.

(** What the driver needs of the two OpenCV primitives: on an image that is
    not empty they return a matrix of the size of their input. *)
Hypothesis cvtColor_shape : ∀ image H W,
  shape image H W → 1 ≤ H → 1 ≤ W →
  ∃ gray, cvtColor image = Ok gray ∧ shape gray H W.
Hypothesis Sobel_shape : ∀ gray dx dy H W,
  shape gray H W → 1 ≤ H → 1 ≤ W →
  ∃ grad, Sobel gray dx dy = Ok grad ∧ shape grad H W.

Lemma mat_abs_shape (m : Mat E) H W :
  shape m H W → shape (mat_abs absE m) H W.
Proof.
  intros (? & ? & ? & ? & Hall). repeat split; simpl; [done..| |].
  - by rewrite length_fmap.
  - rewrite Forall_forall in Hall. apply Forall_fmap, Forall_forall.
    intros r Hr. simpl. rewrite length_fmap. by apply Hall.
Qed.

Lemma mat_add_shape (a b : Mat E) H W :
  shape a H W → shape b H W →
  ∃ m, mat_add add a b = Ok m ∧ shape m H W.
Proof.
  intros (Ha1 & Ha2 & ? & Ha3 & Ha4) (Hb1 & Hb2 & _ & Hb3 & Hb4).
  eexists. split.
  - unfold mat_add. rewrite decide_True; [done|]. by rewrite Ha1, Ha2, Hb1, Hb2.
  - repeat split; simpl; [done..| |].
    + rewrite length_zip_with. lia.
    + apply Forall_lookup_2. intros i r.
      intros (x & y & -> & Hx & Hy)%lookup_zip_with_Some.
      apply (Forall_lookup_1 _ _ _ _ Ha4) in Hx.
      apply (Forall_lookup_1 _ _ _ _ Hb4) in Hy.
      rewrite length_zip_with. lia.
Qed.

Lemma computeEnergy_shape image H W :
  shape image H W → 1 ≤ H → 1 ≤ W →
  ∃ energy, computeEnergy add absE cvtColor Sobel image = Ok energy ∧
            shape energy H W.
Proof.
  intros Him HH HW.
  destruct (cvtColor_shape image H W) as (gray & Hgray & ?); [done..|].
  destruct (Sobel_shape gray 1 0 H W) as (gx & Hgx & ?); [done..|].
  destruct (Sobel_shape gray 0 1 H W) as (gy & Hgy & ?); [done..|].
  destruct (mat_add_shape (mat_abs absE gx) (mat_abs absE gy) H W)
    as (energy & Hadd & ?); [by apply mat_abs_shape..|].
  exists energy. split; [|done].
  unfold computeEnergy. rewrite Hgray. simpl. rewrite Hgx. simpl.
  by rewrite Hgy.
Qed.

Lemma carve_step_spec i image H W :
  shape image H W → 1 ≤ H → 1 ≤ W →
  ∃ out, carve_step add ltb absE cvtColor Sobel junk_int junk_px i image
           = Ok out ∧ shape out H (W - 1).
Proof.
  intros Him HH HW.
  destruct (computeEnergy_shape image H W) as (energy & Henergy & He);
    [done..|].
  destruct (findSeam_spec add ltb junk_int energy H W)
    as (cost & back & last & seam & _ & _ & _ & _ & Hfind & _ & _ & Hin & _);
    [done..|].
  destruct (removeSeam_spec junk_px image seam H W) as (out & Hout & ? & _);
    [done..|].
  exists out. split; [|done].
  unfold carve_step. rewrite Henergy. simpl. by rewrite Hfind.
Qed.

Lemma seamCarving_spec image N H W :
  shape image H W → 1 ≤ H → 0 ≤ N < W →
  ∃ out, seamCarving add ltb absE cvtColor Sobel junk_int junk_px image N
           = ([], Ok out) ∧ shape out H (W - N).
Proof.
  intros Him HH HN. assert (cols image = W) as Hcols by apply Him.
  destruct (for_range_inv (fun k img => shape img H (W - k)) 0 N
              (carve_step add ltb absE cvtColor Sobel junk_int junk_px) image)
    as (out & Hloop & Hout).
  - lia.
  - by rewrite Z.sub_0_r.
  - intros k img Hk Himg.
    destruct (carve_step_spec k img H (W - k)) as (out & Hstep & Hout);
      [done|lia..|].
    exists out. split; [done|]. by replace (W - (k + 1)) with (W - k - 1) by lia.
  - exists out. split; [|done].
    unfold seamCarving. rewrite decide_False by lia. by rewrite Hloop.
Qed.

End DriverFacts.


(** ** The instance on integer samples *)

Section IntegerSamples.

Lemma Z_ltb_asym a b : (a <? b) = true → (b <? a) = false.
Proof. intros Hab%Z.ltb_lt. apply Z.ltb_ge. lia. Qed.

Lemma Z_ltb_negtrans a b c :
  (a <? b) = false → (b <? c) = false → (a <? c) = false.
Proof. intros Hab%Z.ltb_ge Hbc%Z.ltb_ge. apply Z.ltb_ge. lia. Qed.

Lemma Z_add_mono e a b : (a <? b) = false → (e + a <? e + b) = false.
Proof. intros Hab%Z.ltb_ge. apply Z.ltb_ge. lia. Qed.

Lemma cvtColor_model_shape image H W :
  shape image H W → 1 ≤ H → 1 ≤ W →
  ∃ gray, cvtColor_model image = Ok gray ∧ shape gray H W.
Proof.
  intros (Hr & Hc & ? & ? & Hall) HH HW. eexists. split.
  - unfold cvtColor_model. rewrite decide_True; [done|lia].
  - repeat split; simpl; [done..| |].
    + by rewrite length_fmap.
    + rewrite Forall_forall in Hall. apply Forall_fmap, Forall_forall.
      intros r Hin. simpl. rewrite length_fmap. by apply Hall.
Qed.

Lemma Sobel_model_shape gray dx dy H W :
  shape gray H W → 1 ≤ H → 1 ≤ W →
  ∃ grad, Sobel_model gray dx dy = Ok grad ∧ shape grad H W.
Proof.
  intros (Hr & Hc & ? & ? & Hall) HH HW. eexists. split.
  - unfold Sobel_model. rewrite decide_True; [done|lia].
  - repeat split; simpl; [done..| |].
    + rewrite length_fmap, length_seqZ. lia.
    + apply Forall_fmap, Forall_forall. intros i _. simpl.
      rewrite length_fmap, length_seqZ. lia.
Qed.

End IntegerSamples.

(** * The claims of the specification *)

(** ** SeamSolver *)

Section SolverClaims.
Context {E : Type}.
Variable add : E → E → E.
Variable ltb : E → E → bool.
Variable junk : Z → Z → Z.

Hypothesis ltb_asym : ∀ a b, ltb a b = true → ltb b a = false.
Hypothesis ltb_negtrans :
  ∀ a b c, ltb a b = false → ltb b c = false → ltb a c = false.
Hypothesis add_mono :
  ∀ e a b, ltb a b = false → ltb (add e a) (add e b) = false.

(** C4.  On a field of [H ≥ 1] rows and [W ≥ 1] columns [findSeam] returns a
    seam of [H] entries; every entry is a column of the field,
    [0 ≤ seam[i] < W] for [i] in [0, H−1], and the entries of adjacent rows
    differ by at most one, [|seam[i+1] − seam[i]| ≤ 1] for [i] in [0, H−2].
    Nothing is assumed of the order of the samples. *)
Theorem findSeam_valid (energy : Mat E) H W :
  shape energy H W → 1 ≤ H → 1 ≤ W →
  ∃ seam,
    findSeam add ltb junk energy = Ok seam ∧
    Z.of_nat (length seam) = H ∧
    (∀ i, 0 ≤ i ≤ H - 1 → ∃ c, vec_at seam i = Ok c ∧ 0 ≤ c < W) ∧
    (∀ i, 0 ≤ i ≤ H - 2 →
       ∃ c c', vec_at seam i = Ok c ∧ vec_at seam (i + 1) = Ok c' ∧
               Z.abs (c' - c) ≤ 1).
Proof.
  intros He HH HW.
  destruct (findSeam_spec add ltb junk energy H W)
    as (cost & back & last & seam & _ & Hdone & _ & _ & Hfind & Hseam);
    [done..|].
  pose proof (seam_from_path add ltb _ _ _ _ _ _ _ He Hdone Hseam)
    as (Hlen & Hin & Hadj).
  exists seam. split; [done|]. split; [done|]. split.
  - intros i Hi. destruct (vec_at_in seam i) as [c Hc]; [lia|].
    exists c. split; [done|]. by eapply Hin.
  - intros i Hi. destruct (vec_at_in seam i) as [c Hc]; [lia|].
    destruct (vec_at_in seam (i + 1)) as [c' Hc']; [lia|].
    exists c, c'. split; [done|]. split; [done|]. by eapply Hadj.
Qed.

(** C1.  On a field of [H ≥ 1] rows and [W ≥ 1] columns the seam that
    [findSeam] returns is a vertical path (one column per row, adjacent rows
    at most one column apart); its total energy is an entry of the last row
    of the cost table, no entry of that row is smaller, and no vertical path
    from the first row to the last has a smaller total energy: it is the
    minimum over all of them. *)
Theorem findSeam_optimal (energy : Mat E) H W :
  shape energy H W → 1 ≤ H → 1 ≤ W →
  ∃ cost back seam total,
    dp_table add ltb junk energy = Ok (cost, back) ∧
    findSeam add ltb junk energy = Ok seam ∧
    vertical_path H W seam ∧
    seam_energy add energy seam = Ok total ∧
    (∃ j, vec_at seam (H - 1) = Ok j ∧ mat_at cost (H - 1) j = Ok total) ∧
    (∀ j c, mat_at cost (H - 1) j = Ok c → ltb c total = false) ∧
    (∀ p, vertical_path H W p →
       ∃ s, seam_energy add energy p = Ok s ∧ ltb s total = false).
Proof.
  intros He HH HW. assert (rows energy = H) as Hrows by apply He.
  destruct (findSeam_spec add ltb junk energy H W)
    as (cost & back & last & seam & Hdp & Hdone & Hlast & Hlen & Hfind & Hseam);
    [done..|].
  pose proof (seam_from_path add ltb _ _ _ _ _ _ _ He Hdone Hseam) as Hpath.
  destruct (seam_from_energy add ltb _ _ _ _ _ _ _ (Z.to_nat (H - 1))
              He Hdone Hseam) as (j & total & Hj & Hcost & Htotal); [lia|].
  replace (Z.of_nat (Z.to_nat (H - 1))) with (H - 1) in * by lia.
  destruct (min_element_spec ltb ltb_asym ltb_negtrans last)
    as (m & Hm & Hmin & _).
  { intros ->. simpl in Hlen. lia. }
  assert (vec_at seam (H - 1) = Ok (min_element ltb last)) as Hstart
    by apply Hseam.
  assert (∀ k, mat_at cost (H - 1) k = vec_at last k) as Hrow.
  { intros k. unfold mat_at. by rewrite Hlast. }
  assert (j = min_element ltb last) as -> by congruence.
  assert (m = total) as -> by (rewrite Hrow in Hcost; congruence).
  exists cost, back, seam, total.
  split; [done|]. split; [done|]. split; [done|].
  split; [unfold seam_energy; by rewrite Hrows|].
  split; [by eexists|]. split.
  - intros k c Hc. rewrite Hrow in Hc. by eapply Hmin.
  - intros p Hp.
    destruct (path_energy_defined add energy H W p (Z.to_nat (H - 1)))
      as [s Hs]; [done|done|lia|].
    exists s. split; [unfold seam_energy; by rewrite Hrows|].
    destruct (path_lower_bound add ltb ltb_asym ltb_negtrans add_mono
                energy cost back H W p (Z.to_nat (H - 1)) s)
      as (c & m & _ & Hc & Hle); [done|done|done|lia|done|].
    replace (Z.of_nat (Z.to_nat (H - 1))) with (H - 1) in Hc by lia.
    apply (ltb_negtrans _ m); [done|]. rewrite Hrow in Hc. by eapply Hmin.
Qed.

(** C5.  In the tables of [findSeam], for every cell [(i, j)] below the first
    row: the stored offset points at a cheapest valid predecessor; it is 0
    whenever the straight predecessor is a cheapest one, and it is not +1
    whenever the left predecessor is a cheapest one (straight before left
    before right).  The backtrack starts at the first column that attains the
    minimum of the last cost row.  The seam is a function of the field alone:
    it is the same whatever the uninitialised memory holds. *)
Theorem findSeam_tie_break (energy : Mat E) H W :
  shape energy H W → 1 ≤ H → 1 ≤ W →
  ∃ cost back seam,
    dp_table add ltb junk energy = Ok (cost, back) ∧
    findSeam add ltb junk energy = Ok seam ∧
    (∀ i j, 1 ≤ i < H → 0 ≤ j < W →
       ∃ c off m,
         mat_at cost (i - 1) j = Ok c ∧ mat_at back i j = Ok off ∧
         mat_at cost (i - 1) (j + off) = Ok m ∧ is_min ltb cost i j m ∧
         (is_min ltb cost i j c → off = 0) ∧
         (∀ l, mat_at cost (i - 1) (j - 1) = Ok l → is_min ltb cost i j l →
               off ≠ 1)) ∧
    (∃ last jstar m,
       mat_ptr cost (H - 1) = Ok last ∧ vec_at seam (H - 1) = Ok jstar ∧
       vec_at last jstar = Ok m ∧
       (∀ k y, vec_at last k = Ok y → ltb y m = false) ∧
       (∀ k y, k < jstar → vec_at last k = Ok y → ltb m y = true)) ∧
    (∀ junk', findSeam add ltb junk' energy = Ok seam).
Proof.
  intros He HH HW. assert (cols energy = W) as Hcols by apply He.
  destruct (findSeam_spec add ltb junk energy H W)
    as (cost & back & last & seam & Hdp & Hdone & Hlast & Hlen & Hfind & Hseam);
    [done..|].
  exists cost, back, seam. split; [done|]. split; [done|].
  split; [|split].
  - intros i j Hi Hj. destruct Hdone as (Hc & _ & _ & Hcells).
    destruct (mat_at_in cost H W (i - 1) j) as [c Hat]; [done|lia|done|].
    pose proof (Hcells i j Hi Hj) as Hcell.
    destruct (cell_ok_link add ltb energy cost back H W i j)
      as (e & m & off & _ & _ & Hoff & _ & _ & Hm); [done..|].
    destruct Hcell as (e' & m' & off' & _ & Hcell & _ & Hoff').
    assert (off' = off) as -> by congruence. rewrite Hcols in Hcell.
    pose proof (dp_cell_inv ltb _ _ _ _ _ _ Hcell) as (c' & Hc' & Hcases).
    assert (m' = m) as ->.
    { replace (j + off) with
        (if decide (off = 0) then j else if decide (off = -1) then j - 1
         else j + 1) in Hm by (repeat case_decide; lia).
      destruct Hcases as [(-> & -> & _)|[(-> & _ & ? & _)|[(-> & _ & ? & _)|
        (-> & _ & _ & ? & _)]]]; simpl in Hm; congruence. }
    exists c, off, m. split; [done|]. split; [done|]. split; [done|].
    split; [by eapply (dp_cell_min ltb ltb_asym ltb_negtrans)|].
    by eapply (dp_cell_tie_break ltb ltb_negtrans).
  - destruct (min_element_spec ltb ltb_asym ltb_negtrans last)
      as (m & Hm & Hmin & Hfirst).
    { intros ->. simpl in Hlen. lia. }
    exists last, (min_element ltb last), m. split; [done|].
    split; [apply Hseam|]. done.
  - intros junk'. rewrite <- Hfind. by apply (findSeam_junk add ltb _ _ _ H W).
Qed.

(** C6, as the code has it.  [findSeam] needs [H ≥ 1] and [W ≥ 1], and then
    returns a seam of [H] entries, but it does not check them and has no
    [InvalidDimensions] failure: on a field of one row and no column it
    returns the seam [0], and on any other field without rows or without
    columns it reads or writes outside the seam or the tables. *)
Theorem findSeam_unchecked (energy : Mat E) H W :
  shape energy H W →
  (1 ≤ H → 1 ≤ W →
     ∃ seam, findSeam add ltb junk energy = Ok seam ∧
             Z.of_nat (length seam) = H) ∧
  (H < 1 ∨ W < 1 →
     findSeam add ltb junk energy
       = if decide (H = 1) then Ok [0] else Undefined) ∧
  findSeam add ltb junk energy ≠ Raise InvalidDimensions.
Proof.
  intros He. split; [|split].
  - intros HH HW.
    destruct (findSeam_spec add ltb junk energy H W)
      as (cost & back & last & seam & _ & _ & _ & _ & Hfind & Hlen & _);
      [done..|].
    by exists seam.
  - by apply findSeam_degenerate.
  - by intros ?%findSeam_raise.
Qed.

End SolverClaims.

(** C9.  On the field [[1,3,1],[3,1,3],[1,3,1]] the cost table of [findSeam]
    is [[1,3,1],[4,2,4],[3,5,3]], the first smallest entry of its last row
    is in column 0, and the seam is [0,1,0], of total energy 3. *)
Theorem findSeam_field3 (junk : Z → Z → Z) :
  ∃ back,
    dp_table Z.add Z.ltb junk field3
      = Ok (mkMat 3 3 [[1; 3; 1]; [4; 2; 4]; [3; 5; 3]], back) ∧
    min_element Z.ltb [3; 5; 3] = 0 ∧
    findSeam Z.add Z.ltb junk field3 = Ok [0; 1; 0] ∧
    seam_energy Z.add field3 [0; 1; 0] = Ok 3.
Proof. eexists. repeat split; vm_compute; reflexivity. Qed.

(** ** SeamRemover *)

Section RemoverClaims.
Variable junk : Z → Z → Vec3b.

(** C3.  For an [H]×[W] image with [W ≥ 2] and a seam of [H] entries in
    [0, W−1], [removeSeam] returns an [H]×[(W−1)] image; its pixel [(i, j)] is
    the pixel [(i, j)] of the input when [j < seam[i]] and the pixel
    [(i, j+1)] of the input when [j ≥ seam[i]]. *)
Theorem removeSeam_relocates (image : Mat Vec3b) seam H W :
  shape image H W → 2 ≤ W → Z.of_nat (length seam) = H →
  (∀ i s, vec_at seam i = Ok s → 0 ≤ s ≤ W - 1) →
  ∃ output,
    removeSeam junk image seam = Ok output ∧ shape output H (W - 1) ∧
    ∀ i j s, 0 ≤ i < H → 0 ≤ j < W - 1 → vec_at seam i = Ok s →
      ∃ px, mat_at output i j = Ok px ∧
            (j < s → mat_at image i j = Ok px) ∧
            (s ≤ j → mat_at image i (j + 1) = Ok px).
Proof.
  intros Him HW Hlen Hseam.
  destruct (removeSeam_spec junk image seam H W)
    as (output & Hout & Hsh & Hrows); [done|lia| |].
  { intros i Hi. destruct (vec_at_in seam i) as [s Hs]; [lia|].
    exists s. split; [done|]. pose proof (Hseam i s Hs). lia. }
  exists output. split; [done|]. split; [done|].
  intros i j s Hi Hj Hs.
  destruct (mat_at_in output H (W - 1) i j) as [px Hpx]; [done..|].
  exists px. split; [done|].
  pose proof (Hrows i s Hi Hs j Hj) as Hrow. unfold shifted in Hrow.
  rewrite Hpx in Hrow.
  split; intros ?; [by rewrite decide_True in Hrow|].
  by rewrite decide_False in Hrow by lia.
Qed.

(** C7, as the code has it.  [removeSeam] checks nothing and never fails with
    [InvalidSeam].  When the seam has an entry in [0, W−1] for each of the [H]
    rows, the call returns the [H]×[(W−1)] image, whether or not further
    entries follow: only the first [H] entries are read.  When some row has
    no entry (the seam is shorter than [H]) or an entry outside [0, W−1], the
    call reads or writes out of range. *)
Theorem removeSeam_unchecked (image : Mat Vec3b) seam H W :
  shape image H W → 1 ≤ W →
  removeSeam junk image seam ≠ Raise InvalidSeam ∧
  ((∀ i, 0 ≤ i < H → ∃ s, vec_at seam i = Ok s ∧ 0 ≤ s < W) →
   ∃ output,
     removeSeam junk image seam = Ok output ∧ shape output H (W - 1) ∧
     ∀ extra, removeSeam junk image (take (Z.to_nat H) seam ++ extra)
                = Ok output) ∧
  (∀ i, 0 ≤ i < H → (∀ s, vec_at seam i = Ok s → ¬ (0 ≤ s < W)) →
     removeSeam junk image seam = Undefined).
Proof.
  intros Him HW. split; [by intros ?%removeSeam_raise|]. split.
  2: { intros i Hi Hbad. by apply (removeSeam_undefined junk image seam H W i). }
  intros Hseam.
  destruct (removeSeam_spec junk image seam H W)
    as (output & Hout & Hsh & Hrows); [done..|].
  exists output. split; [done|]. split; [done|]. intros extra.
  assert (∀ i, 0 ≤ i < H →
    vec_at (take (Z.to_nat H) seam ++ extra) i = vec_at seam i) as Hsame.
  { intros i Hi. destruct (Hseam i Hi) as (s & Hs & _). rewrite Hs.
    apply vec_at_Ok in Hs as [_ Hs]. apply vec_at_Ok. split; [lia|].
    rewrite lookup_app_l.
    - rewrite lookup_take_lt; [done|lia].
    - apply lookup_lt_Some in Hs. rewrite length_take. lia. }
  destruct (removeSeam_spec junk image (take (Z.to_nat H) seam ++ extra) H W)
    as (output' & Hout' & Hsh' & Hrows'); [done..| |].
  { intros i Hi. rewrite Hsame by done. by apply Hseam. }
  rewrite Hout'. f_equal. apply (mat_ext _ _ H (W - 1)); [done..|].
  intros i j Hi Hj. destruct (Hseam i Hi) as (s & Hs & _).
  rewrite (Hrows i s Hi Hs j Hj).
  apply (Hrows' i s Hi); [|done]. by rewrite Hsame.
Qed.

End RemoverClaims.

(** ** CarveDriver *)

Section DriverClaims.
Context {G E : Type}.
Variable add : E → E → E.
Variable ltb : E → E → bool.
Variable absE : E → E.
Variable cvtColor : Mat Vec3b → outcome (Mat G).
Variable Sobel : Mat G → Z → Z → outcome (Mat E).
Variable junk_int : Z → Z → Z.
Variable junk_px : Z → Z → Vec3b.

Hypothesis cvtColor_shape : ∀ image H W,
  shape image H W → 1 ≤ H → 1 ≤ W →
  ∃ gray, cvtColor image = Ok gray ∧ shape gray H W.
Hypothesis Sobel_shape : ∀ gray dx dy H W,
  shape gray H W → 1 ≤ H → 1 ≤ W →
  ∃ grad, Sobel gray dx dy = Ok grad ∧ shape grad H W.

(** C8.  For an [H]×[W] image, [H ≥ 1], and [0 ≤ N < W], [seamCarving]
    prints nothing and returns an image of [H] rows and [W − N] columns; for
    [N = 0] it is the input.  The two OpenCV primitives are assumed to return
    matrices of the size of their input. *)
Theorem seamCarving_dimensions (image : Mat Vec3b) N H W :
  shape image H W → 1 ≤ H → 0 ≤ N < W →
  ∃ output,
    seamCarving add ltb absE cvtColor Sobel junk_int junk_px image N
      = ([], Ok output) ∧
    shape output H (W - N) ∧
    (N = 0 → output = image).
Proof.
  intros Him HH HN.
  destruct (seamCarving_spec add ltb absE cvtColor Sobel junk_int junk_px
              cvtColor_shape Sobel_shape image N H W)
    as (output & Hcarve & Hout); [done..|].
  exists output. split; [done|]. split; [done|]. intros ->.
  unfold seamCarving in Hcarve. rewrite decide_False in Hcarve.
  - rewrite for_range_empty in Hcarve by lia. by simplify_eq.
  - destruct Him as (_ & -> & _). lia.
Qed.

(** C10.  For an image of width [W] and [N ≥ W] or [N < 0], [seamCarving]
    returns an image and no error, and the image has the pixels of the input:
    the branch of [N ≥ W] returns a copy of the input, which is the input
    itself unless it has no pixel, and for [N < 0] the carving loop runs no
    iteration and the input is returned. *)
Theorem seamCarving_returns_input (image : Mat Vec3b) N H W :
  shape image H W → N >= W ∨ N < 0 →
  ∃ output,
    (seamCarving add ltb absE cvtColor Sobel junk_int junk_px image N).2
      = Ok output ∧
    (∀ i j, mat_at output i j = mat_at image i j) ∧
    (1 ≤ H → 1 ≤ W → output = image) ∧
    (N < 0 →
       for_range 0 N
         (carve_step add ltb absE cvtColor Sobel junk_int junk_px) image
         = Ok image).
Proof.
  intros Him HN. assert (cols image = W) as Hcols by apply Him.
  assert (N < 0 →
    for_range 0 N (carve_step add ltb absE cvtColor Sobel junk_int junk_px)
      image = Ok image) as Hloop.
  { intros ?. apply for_range_empty. lia. }
  unfold seamCarving. rewrite Hcols. case_decide; simpl.
  - exists (clone image). split; [done|].
    split; [by apply (clone_pixels image H W)|]. split; [|done].
    intros HH HW. by apply (clone_eq image H W).
  - exists image. rewrite Hloop by lia. done.
Qed.

(** C2, as the code has it.  For an image of width [W] (and of at least one
    row and one column) and [N ≥ W], [seamCarving] prints the diagnostic that
    carries [N] and [W] and returns a copy of its input; for [N < 0] it
    prints nothing and returns its input.  In neither case does it fail. *)
Theorem seamCarving_refusal (image : Mat Vec3b) N H W :
  shape image H W → 1 ≤ H → 1 ≤ W → N >= W ∨ N < 0 →
  seamCarving add ltb absE cvtColor Sobel junk_int junk_px image N
    = (if decide (N >= W) then [ExceedsWidth N W] else [], Ok image).
Proof.
  intros Him HH HW HN. assert (cols image = W) as Hcols by apply Him.
  unfold seamCarving. rewrite Hcols.
  case_decide; [by rewrite (clone_eq image H W)|].
  rewrite for_range_empty by lia. done.
Qed.

End DriverClaims.

(** ** Where the code departs from the specification *)

(** C2 fails on a 2×3 image and [N = 3]: the input is returned, not an
    error. *)
Lemma seamCarving_TooManySeams_counterexample :
  shape image23 2 3 ∧
  (seamCarving Z.add Z.ltb Z.abs cvtColor_model Sobel_model
     no_junk_int no_junk_px image23 3).2 = Ok image23 ∧
  (seamCarving Z.add Z.ltb Z.abs cvtColor_model Sobel_model
     no_junk_int no_junk_px image23 3).2 ≠ Raise (TooManySeams 3 3).
Proof. split; [compute_done|]. split; [by vm_compute|]. by vm_compute. Qed.

(** C6 fails on a field of one row and no column: a seam is returned, not
    an error. *)
Lemma findSeam_InvalidDimensions_counterexample :
  shape (mkMat 1 0 [[]] : Mat Z) 1 0 ∧
  findSeam Z.add Z.ltb no_junk_int (mkMat 1 0 [[]]) = Ok [0] ∧
  findSeam Z.add Z.ltb no_junk_int (mkMat 1 0 [[]])
    ≠ Raise InvalidDimensions.
Proof. split; [compute_done|]. split; [by vm_compute|]. by vm_compute. Qed.

(** C7 fails on a 1×2 image and a seam of two entries: the image without its
    first column is returned, not an error. *)
Lemma removeSeam_InvalidSeam_counterexample :
  shape (mkMat 1 2 [[black; white]]) 1 2 ∧ length [0; 0] ≠ 1%nat ∧
  removeSeam no_junk_px (mkMat 1 2 [[black; white]]) [0; 0]
    = Ok (mkMat 1 1 [[white]]) ∧
  removeSeam no_junk_px (mkMat 1 2 [[black; white]]) [0; 0]
    ≠ Raise InvalidSeam.
Proof.
  split; [compute_done|]. split; [done|]. split; [by vm_compute|].
  by vm_compute.
Qed.

(** ** The claims on the examples *)

(** The seam of a two-row example, entry by entry. *)
Lemma seam02_in_range i s : vec_at [0; 2] i = Ok s → 0 ≤ s ≤ 3 - 1.
Proof.
  intros Hs. pose proof (vec_at_range _ _ _ Hs) as Hi. simpl in Hi.
  assert (i = 0 ∨ i = 1) as [-> | ->] by lia; vm_compute in Hs;
    simplify_eq; lia.
Qed.

(** C4 on the 3×3 field. *)
Lemma findSeam_valid_witness :
  shape field3 3 3 ∧
  ∃ seam,
    findSeam Z.add Z.ltb no_junk_int field3 = Ok seam ∧
    Z.of_nat (length seam) = 3 ∧
    (∀ i, 0 ≤ i ≤ 3 - 1 → ∃ c, vec_at seam i = Ok c ∧ 0 ≤ c < 3) ∧
    (∀ i, 0 ≤ i ≤ 3 - 2 →
       ∃ c c', vec_at seam i = Ok c ∧ vec_at seam (i + 1) = Ok c' ∧
               Z.abs (c' - c) ≤ 1).
Proof.
  split; [compute_done|].
  apply (findSeam_valid Z.add Z.ltb no_junk_int field3 3 3);
    [compute_done|lia|lia].
Defined.

(** C1 on the 3×3 field, with integer samples. *)
Lemma findSeam_optimal_witness :
  shape field3 3 3 ∧
  ∃ cost back seam total,
    dp_table Z.add Z.ltb no_junk_int field3 = Ok (cost, back) ∧
    findSeam Z.add Z.ltb no_junk_int field3 = Ok seam ∧
    vertical_path 3 3 seam ∧
    seam_energy Z.add field3 seam = Ok total ∧
    (∃ j, vec_at seam (3 - 1) = Ok j ∧ mat_at cost (3 - 1) j = Ok total) ∧
    (∀ j c, mat_at cost (3 - 1) j = Ok c → (c <? total) = false) ∧
    (∀ p, vertical_path 3 3 p →
       ∃ s, seam_energy Z.add field3 p = Ok s ∧ (s <? total) = false).
Proof.
  split; [compute_done|].
  apply (findSeam_optimal Z.add Z.ltb no_junk_int
           Z_ltb_asym Z_ltb_negtrans Z_add_mono field3 3 3);
    [compute_done|lia|lia].
Defined.

(** C5 on the 3×3 field, with integer samples. *)
Lemma findSeam_tie_break_witness :
  shape field3 3 3 ∧
  ∃ cost back seam,
    dp_table Z.add Z.ltb no_junk_int field3 = Ok (cost, back) ∧
    findSeam Z.add Z.ltb no_junk_int field3 = Ok seam ∧
    (∀ i j, 1 ≤ i < 3 → 0 ≤ j < 3 →
       ∃ c off m,
         mat_at cost (i - 1) j = Ok c ∧ mat_at back i j = Ok off ∧
         mat_at cost (i - 1) (j + off) = Ok m ∧ is_min Z.ltb cost i j m ∧
         (is_min Z.ltb cost i j c → off = 0) ∧
         (∀ l, mat_at cost (i - 1) (j - 1) = Ok l →
               is_min Z.ltb cost i j l → off ≠ 1)) ∧
    (∃ last jstar m,
       mat_ptr cost (3 - 1) = Ok last ∧ vec_at seam (3 - 1) = Ok jstar ∧
       vec_at last jstar = Ok m ∧
       (∀ k y, vec_at last k = Ok y → (y <? m) = false) ∧
       (∀ k y, k < jstar → vec_at last k = Ok y → (m <? y) = true)) ∧
    (∀ junk', findSeam Z.add Z.ltb junk' field3 = Ok seam).
Proof.
  split; [compute_done|].
  apply (findSeam_tie_break Z.add Z.ltb no_junk_int
           Z_ltb_asym Z_ltb_negtrans field3 3 3);
    [compute_done|lia|lia].
Defined.

(** C6, as the code has it, on a field of two rows and no column. *)
Lemma findSeam_unchecked_witness :
  shape (mkMat 2 0 [[]; []] : Mat Z) 2 0 ∧
  (1 ≤ 2 → 1 ≤ 0 →
     ∃ seam, findSeam Z.add Z.ltb no_junk_int (mkMat 2 0 [[]; []]) = Ok seam ∧
             Z.of_nat (length seam) = 2) ∧
  (2 < 1 ∨ 0 < 1 →
     findSeam Z.add Z.ltb no_junk_int (mkMat 2 0 [[]; []])
       = if decide (2 = 1) then Ok [0] else Undefined) ∧
  findSeam Z.add Z.ltb no_junk_int (mkMat 2 0 [[]; []])
    ≠ Raise InvalidDimensions.
Proof.
  split; [compute_done|].
  apply (findSeam_unchecked Z.add Z.ltb no_junk_int (mkMat 2 0 [[]; []]) 2 0).
  compute_done.
Defined.

(** C3 on the 2×3 image and the seam [0, 2]. *)
Lemma removeSeam_relocates_witness :
  shape image23 2 3 ∧ Z.of_nat (length [0; 2]) = 2 ∧
  ∃ output,
    removeSeam no_junk_px image23 [0; 2] = Ok output ∧
    shape output 2 (3 - 1) ∧
    ∀ i j s, 0 ≤ i < 2 → 0 ≤ j < 3 - 1 → vec_at [0; 2] i = Ok s →
      ∃ px, mat_at output i j = Ok px ∧
            (j < s → mat_at image23 i j = Ok px) ∧
            (s ≤ j → mat_at image23 i (j + 1) = Ok px).
Proof.
  split; [compute_done|]. split; [reflexivity|].
  apply (removeSeam_relocates no_junk_px image23 [0; 2] 2 3);
    [compute_done|lia|reflexivity|exact seam02_in_range].
Defined.

(** C7, as the code has it, on a 1×2 image and a seam of two entries. *)
Lemma removeSeam_unchecked_witness :
  shape (mkMat 1 2 [[black; white]]) 1 2 ∧
  removeSeam no_junk_px (mkMat 1 2 [[black; white]]) [0; 0]
    ≠ Raise InvalidSeam ∧
  ((∀ i, 0 ≤ i < 1 → ∃ s, vec_at [0; 0] i = Ok s ∧ 0 ≤ s < 2) →
   ∃ output,
     removeSeam no_junk_px (mkMat 1 2 [[black; white]]) [0; 0] = Ok output ∧
     shape output 1 (2 - 1) ∧
     ∀ extra,
       removeSeam no_junk_px (mkMat 1 2 [[black; white]])
         (take (Z.to_nat 1) [0; 0] ++ extra) = Ok output) ∧
  (∀ i, 0 ≤ i < 1 → (∀ s, vec_at [0; 0] i = Ok s → ¬ (0 ≤ s < 2)) →
     removeSeam no_junk_px (mkMat 1 2 [[black; white]]) [0; 0] = Undefined).
Proof.
  split; [compute_done|].
  apply (removeSeam_unchecked no_junk_px (mkMat 1 2 [[black; white]])
           [0; 0] 1 2); [compute_done|lia].
Defined.

(** C8 on the 2×3 image and [N = 2]. *)
Lemma seamCarving_dimensions_witness :
  shape image23 2 3 ∧
  ∃ output,
    seamCarving Z.add Z.ltb Z.abs cvtColor_model Sobel_model
      no_junk_int no_junk_px image23 2 = ([], Ok output) ∧
    shape output 2 (3 - 2) ∧
    (2 = 0 → output = image23).
Proof.
  split; [compute_done|].
  apply (seamCarving_dimensions Z.add Z.ltb Z.abs cvtColor_model Sobel_model
           no_junk_int no_junk_px cvtColor_model_shape Sobel_model_shape
           image23 2 2 3); [compute_done|lia|lia].
Defined.

(** C10 on the 2×3 image and [N = −1]. *)
Lemma seamCarving_returns_input_witness :
  shape image23 2 3 ∧
  ∃ output,
    (seamCarving Z.add Z.ltb Z.abs cvtColor_model Sobel_model
       no_junk_int no_junk_px image23 (-1)).2 = Ok output ∧
    (∀ i j, mat_at output i j = mat_at image23 i j) ∧
    (1 ≤ 2 → 1 ≤ 3 → output = image23) ∧
    (-1 < 0 →
       for_range 0 (-1)
         (carve_step Z.add Z.ltb Z.abs cvtColor_model Sobel_model
            no_junk_int no_junk_px) image23 = Ok image23).
Proof.
  split; [compute_done|].
  apply (seamCarving_returns_input Z.add Z.ltb Z.abs cvtColor_model
           Sobel_model no_junk_int no_junk_px image23 (-1) 2 3);
    [compute_done|].
  right. lia.
Defined.

(** C2, as the code has it, on the 2×3 image and [N = 3]. *)
Lemma seamCarving_refusal_witness :
  shape image23 2 3 ∧
  seamCarving Z.add Z.ltb Z.abs cvtColor_model Sobel_model
    no_junk_int no_junk_px image23 3
    = (if decide (3 >= 3) then [ExceedsWidth 3 3] else [], Ok image23).
Proof.
  split; [compute_done|].
  apply (seamCarving_refusal Z.add Z.ltb Z.abs cvtColor_model Sobel_model
           no_junk_int no_junk_px image23 3 2 3); [compute_done|lia|lia|].
  left. lia.
Defined.

(** * Further properties of the code *)

(** ** [removeSeam], row by row *)

Section RemoverRows.
Variable junk : Z → Z → Vec3b.

Lemma vec_at_delete {A} (row : list A) s k :
  0 ≤ s → vec_at (delete (Z.to_nat s) row) k = vec_at row (shifted s k).
Proof.
  intros Hs. unfold shifted.
  destruct (decide (k < s)) as [Hlt|Hge]; unfold vec_at.
  - destruct (decide (0 ≤ k)); [|done].
    rewrite list_lookup_delete_lt; [done|lia].
  - destruct (decide (0 ≤ k)).
    + rewrite decide_True by lia. rewrite list_lookup_delete_ge by lia.
      by replace (Z.to_nat (k + 1)) with (Datatypes.S (Z.to_nat k)) by lia.
    + by rewrite decide_False by lia.
Qed.

(** Each row of the result is the row of the input without the element at
    the seam column. *)
Lemma removeSeam_rows (image : Mat Vec3b) seam H W :
  shape image H W → 1 ≤ W →
  (∀ i, 0 ≤ i < H → ∃ s, vec_at seam i = Ok s ∧ 0 ≤ s < W) →
  ∃ out, removeSeam junk image seam = Ok out ∧ shape out H (W - 1) ∧
    ∀ i s row, 0 ≤ i < H → vec_at seam i = Ok s → mat_ptr image i = Ok row →
      mat_ptr out i = Ok (delete (Z.to_nat s) row).
Proof.
  intros Him HW Hseam.
  destruct (removeSeam_spec junk image seam H W)
    as (out & Hout & Hsh & Hrows); [done..|].
  exists out. split; [done|]. split; [done|]. intros i s row Hi Hs Hrow.
  destruct (Hseam i Hi) as (s' & Hs' & Hrange).
  assert (s' = s) as -> by congruence.
  destruct (mat_ptr_in out H (W - 1) i) as (orow & Horow & Hlen); [done..|].
  destruct (mat_ptr_in image H W i) as (row' & Hrow' & Hlen'); [done..|].
  assert (row' = row) as -> by congruence.
  rewrite Horow. f_equal. apply vec_at_ext. intros k.
  rewrite vec_at_delete by lia.
  destruct (decide (0 ≤ k < W - 1)) as [Hk|Hk].
  - pose proof (Hrows i s Hi Hs k Hk) as Hcell. unfold mat_at in Hcell.
    by rewrite Horow, Hrow in Hcell.
  - rewrite !vec_at_out; [done| |lia]. unfold shifted. case_decide; lia.
Qed.

(** The result does not depend on what the fresh [output] matrix held. *)
Lemma removeSeam_junk_irrelevant (junk' : Z → Z → Vec3b) image seam H W :
  shape image H W → 1 ≤ W →
  (∀ i, 0 ≤ i < H → ∃ s, vec_at seam i = Ok s ∧ 0 ≤ s < W) →
  removeSeam junk image seam = removeSeam junk' image seam.
Proof.
  intros Him HW Hseam.
  destruct (removeSeam_spec junk image seam H W)
    as (out & -> & Hsh & Hrows); [done..|].
  destruct (removeSeam_spec junk' image seam H W)
    as (out' & -> & Hsh' & Hrows'); [done..|].
  f_equal. apply (mat_ext _ _ H (W - 1)); [done..|].
  intros i j Hi Hj. destruct (Hseam i Hi) as (s & Hs & _).
  by rewrite (Hrows i s Hi Hs j Hj), (Hrows' i s Hi Hs j Hj).
Qed.

End RemoverRows.

Section RemoverRowsMore.
Variable junk : Z → Z → Vec3b.

Lemma mat_ptr_lookup {A} (m : Mat A) (n : nat) row :
  data m !! n = Some row → mat_ptr m (Z.of_nat n) = Ok row.
Proof.
  intros Hrow. rewrite mat_ptr_rows by (by intros Hnil; rewrite Hnil in Hrow).
  apply vec_at_Ok. split; [lia|]. by rewrite Nat2Z.id.
Qed.

(** Every row of the result is a sublist of the row of the input. *)
Lemma removeSeam_sublist (image : Mat Vec3b) seam H W :
  shape image H W → 1 ≤ W →
  (∀ i, 0 ≤ i < H → ∃ s, vec_at seam i = Ok s ∧ 0 ≤ s < W) →
  ∃ out, removeSeam junk image seam = Ok out ∧ shape out H (W - 1) ∧
         Forall2 sublist (data out) (data image).
Proof.
  intros Him HW Hseam.
  destruct (removeSeam_rows junk image seam H W)
    as (out & Hout & Hsh & Hrows); [done..|].
  exists out. split; [done|]. split; [done|].
  apply Forall2_same_length_lookup_2.
  - destruct Him as (_ & _ & _ & ? & _), Hsh as (_ & _ & _ & ? & _). lia.
  - intros n orow row Horow Hrow.
    assert (0 ≤ Z.of_nat n < H) as Hn.
    { apply lookup_lt_Some in Hrow. destruct Him as (_ & _ & _ & ? & _). lia. }
    destruct (Hseam _ Hn) as (s & Hs & _).
    apply mat_ptr_lookup in Horow, Hrow.
    rewrite (Hrows _ s row Hn Hs Hrow) in Horow. simplify_eq.
    apply sublist_delete.
Qed.

End RemoverRowsMore.

(** ** The carving loop, row by row *)

Section LoopFactsMore.
Context {S : Type}.
Implicit Types (body : Z → S → outcome S) (P : Z → S → Prop).

(** Two bodies that agree on the states of a run give the same run. *)
Lemma iter_up_ext P body1 body2 n i s :
  P i s →
  (∀ k s, i ≤ k < i + Z.of_nat n → P k s →
     body1 k s = body2 k s ∧ ∀ s', body1 k s = Ok s' → P (k + 1) s') →
  iter_up n i body1 s = iter_up n i body2 s.
Proof.
  revert i s. induction n as [|n IH]; intros i s Hs Hbody; [done|].
  simpl. destruct (Hbody i s) as [<- Hnext]; [lia|done|].
  destruct (body1 i s) as [s'| |]; simpl; [|done..].
  apply IH; [by apply Hnext|]. intros k s'' Hk. apply Hbody. lia.
Qed.

(** A body that ignores the loop variable may start anywhere. *)
Lemma iter_up_shift body n i i' s :
  (∀ k k' s, body k s = body k' s) →
  iter_up n i body s = iter_up n i' body s.
Proof.
  intros Hbody. revert i i' s. induction n as [|n IH]; intros i i' s; [done|].
  simpl. rewrite (Hbody i i'). destruct (body i' s); simpl; [|done..].
  apply IH.
Qed.

End LoopFactsMore.

Section DriverRows.
Context {G E : Type}.
Variable add : E → E → E.
Variable ltb : E → E → bool.
Variable absE : E → E.
Variable cvtColor : Mat Vec3b → outcome (Mat G).
Variable Sobel : Mat G → Z → Z → outcome (Mat E).
Variable junk_int : Z → Z → Z.
Variable junk_px : Z → Z → Vec3b.

Hypothesis cvtColor_shape : ∀ image H W,
  shape image H W → 1 ≤ H → 1 ≤ W →
  ∃ gray, cvtColor image = Ok gray ∧ shape gray H W.
Hypothesis Sobel_shape : ∀ gray dx dy H W,
  shape gray H W → 1 ≤ H → 1 ≤ W →
  ∃ grad, Sobel gray dx dy = Ok grad ∧ shape grad H W.

Lemma Forall2_sublist_trans {A} (l k m : list (list A)) :
  Forall2 sublist l k → Forall2 sublist k m → Forall2 sublist l m.
Proof.
  intros Hlk. revert m. induction Hlk as [|x y l k Hxy _ IH]; intros m Hkm.
  - by apply Forall2_nil_inv_l in Hkm as ->.
  - apply Forall2_cons_inv_l in Hkm as (z & m' & Hyz & Hkm' & ->).
    constructor; [by etrans|by apply IH].
Qed.

Lemma carve_step_rows i image H W :
  shape image H W → 1 ≤ H → 1 ≤ W →
  ∃ out, carve_step add ltb absE cvtColor Sobel junk_int junk_px i image
           = Ok out ∧ shape out H (W - 1) ∧
         Forall2 sublist (data out) (data image).
Proof.
  intros Him HH HW.
  destruct (computeEnergy_shape add absE cvtColor Sobel
              cvtColor_shape Sobel_shape image H W)
    as (energy & Henergy & He); [done..|].
  destruct (findSeam_spec add ltb junk_int energy H W)
    as (cost & back & last & seam & _ & _ & _ & _ & Hfind & _ & _ & Hin & _);
    [done..|].
  destruct (removeSeam_sublist junk_px image seam H W)
    as (out & Hout & ? & ?); [done..|].
  exists out. split; [|done].
  unfold carve_step. rewrite Henergy. simpl. by rewrite Hfind.
Qed.

Lemma carve_step_junk_irrelevant junk_int' junk_px' i i' image H W :
  shape image H W → 1 ≤ H → 1 ≤ W →
  carve_step add ltb absE cvtColor Sobel junk_int junk_px i image
    = carve_step add ltb absE cvtColor Sobel junk_int' junk_px' i' image.
Proof.
  intros Him HH HW.
  destruct (computeEnergy_shape add absE cvtColor Sobel
              cvtColor_shape Sobel_shape image H W)
    as (energy & Henergy & He); [done..|].
  unfold carve_step. rewrite Henergy. simpl.
  rewrite (findSeam_junk add ltb junk_int junk_int' energy H W) by done.
  destruct (findSeam_spec add ltb junk_int' energy H W)
    as (cost & back & last & seam & _ & _ & _ & _ & -> & _ & _ & Hin & _);
    [done..|].
  simpl. by apply (removeSeam_junk_irrelevant _ _ _ _ H W).
Qed.

Lemma seamCarving_rows image N H W :
  shape image H W → 1 ≤ H → 0 ≤ N < W →
  ∃ out, seamCarving add ltb absE cvtColor Sobel junk_int junk_px image N
           = ([], Ok out) ∧ shape out H (W - N) ∧
         Forall2 sublist (data out) (data image).
Proof.
  intros Him HH HN. assert (cols image = W) as Hcols by apply Him.
  destruct (for_range_inv
              (fun k img => shape img H (W - k) ∧
                            Forall2 sublist (data img) (data image)) 0 N
              (carve_step add ltb absE cvtColor Sobel junk_int junk_px) image)
    as (out & Hloop & Hout & Hsub).
  - lia.
  - split; [by rewrite Z.sub_0_r|]. by apply Forall2_same_length_lookup_2;
      [|intros; simplify_eq].
  - intros k img Hk [Himg Hsub].
    destruct (carve_step_rows k img H (W - k)) as (out & Hstep & Hout & Hsub');
      [done|lia..|].
    exists out. split; [done|]. split.
    + by replace (W - (k + 1)) with (W - k - 1) by lia.
    + by eapply Forall2_sublist_trans.
  - exists out. split; [|done].
    unfold seamCarving. rewrite decide_False by lia. by rewrite Hloop.
Qed.

Lemma seamCarving_junk_irrelevant junk_int' junk_px' image N H W :
  shape image H W → 1 ≤ H → 1 ≤ W →
  seamCarving add ltb absE cvtColor Sobel junk_int junk_px image N
    = seamCarving add ltb absE cvtColor Sobel junk_int' junk_px' image N.
Proof.
  intros Him HH HW. unfold seamCarving. case_decide; [done|]. f_equal.
  assert (cols image = W) as Hcols by apply Him.
  destruct (decide (N ≤ 0)) as [Hneg|Hpos].
  { by rewrite !for_range_empty by lia. }
  unfold for_range.
  apply (iter_up_ext (fun k img => 0 ≤ k ≤ N ∧ shape img H (W - k))).
  - split; [lia|]. by rewrite Z.sub_0_r.
  - intros k img Hk [_ Himg]. split.
    + apply (carve_step_junk_irrelevant _ _ _ _ _ H (W - k)); [done|lia..].
    + intros out Hstep. split; [lia|].
      destruct (carve_step_rows k img H (W - k)) as (out' & Hstep' & Hout & _);
        [done|lia..|].
      assert (out' = out) as -> by congruence.
      by replace (W - (k + 1)) with (W - k - 1) by lia.
Qed.

End DriverRows.

(** ** The cost table of [findSeam] *)

Section CostTableFacts.
Context {E : Type}.
Variable add : E → E → E.
Variable ltb : E → E → bool.
Variable junk : Z → Z → Z.

Lemma path_energy_app_l (energy : Mat E) p q (k : nat) :
  (k < length p)%nat →
  path_energy add energy (p ++ q) k = path_energy add energy p k.
Proof.
  assert (∀ n : nat, (n < length p)%nat →
    vec_at (p ++ q) (Z.of_nat n) = vec_at p (Z.of_nat n)) as Hat.
  { intros n Hn. unfold vec_at. rewrite !decide_True, Nat2Z.id by lia.
    by rewrite lookup_app_l. }
  induction k as [|k IH]; intros Hk.
  - pose proof (Hat O Hk) as Hat0. change (Z.of_nat 0) with 0 in Hat0.
    simpl. by rewrite Hat0.
  - rewrite !path_energy_S, IH by lia.
    replace (Z.of_nat k + 1) with (Z.of_nat (Datatypes.S k)) by lia.
    by rewrite Hat.
Qed.

(** Every cell of the cost table is the energy of some path that ends in
    it. *)
Lemma cost_attained energy cost back H W (k : nat) j :
  shape energy H W → dp_done add ltb energy H W cost back →
  Z.of_nat k < H → 0 ≤ j < W →
  ∃ p c, vertical_path (Z.of_nat k + 1) W p ∧
         vec_at p (Z.of_nat k) = Ok j ∧ mat_at cost (Z.of_nat k) j = Ok c ∧
         path_energy add energy p k = Ok c.
Proof.
  intros He Hdone. pose proof Hdone as (Hc & _ & Hrow0 & Hcells).
  revert j. induction k as [|k IH]; intros j Hk Hj.
  - destruct (mat_at_in energy H W 0 j) as [c Hat]; [done|lia|done|].
    exists [j], c. split; [|split; [done|split]].
    + split; [done|]. split.
      * intros i c' Hat'. pose proof (vec_at_range _ _ _ Hat') as Hi.
        simpl in Hi. assert (i = 0) as -> by lia. cbv in Hat'. by simplify_eq.
      * intros i c1 c2 Hx Hy. apply vec_at_range in Hx, Hy. simpl in *. lia.
    + simpl. by rewrite Hrow0.
    + done.
  - replace (Z.of_nat (Datatypes.S k)) with (Z.of_nat k + 1) in * by lia.
    destruct (cell_ok_link add ltb energy cost back H W (Z.of_nat k + 1) j)
      as (e & mc & off & Hat_e & Hat_c & Hoff & Hoff_range & Hpred & Hmc);
      [done..|apply Hcells; [lia|done]|].
    replace (Z.of_nat k + 1 - 1) with (Z.of_nat k) in Hmc by lia.
    destruct (IH (j + off)) as (p & c & (Hlen & Hin & Hadj) & Hend & Hcost & Hp);
      [lia|done|].
    assert (c = mc) as -> by congruence.
    assert (length p = Datatypes.S k) as Hlen' by lia.
    assert (∀ i x, vec_at (p ++ [j]) i = Ok x →
      vec_at p i = Ok x ∨ (i = Z.of_nat k + 1 ∧ x = j)) as Hsnoc.
    { intros i x [?|[-> ->]]%vec_at_snoc; [by left|right]. split; [lia|done]. }
    exists (p ++ [j]), (add e mc). split; [|split; [|split; [done|]]].
    + split; [rewrite length_app; simpl; lia|]. split.
      * intros i x [Hx|[_ ->]]%Hsnoc; [by eapply Hin|done].
      * intros i x y Hx Hy.
        apply Hsnoc in Hy as [Hy|[Hi ->]].
        -- apply Hsnoc in Hx as [Hx|[-> _]]; [by eapply Hadj|].
           apply vec_at_range in Hy. lia.
        -- assert (i = Z.of_nat k) as -> by lia.
           apply Hsnoc in Hx as [Hx|[? _]]; [|lia].
           assert (x = j + off) as -> by congruence. lia.
    + apply vec_at_snoc. right. split; [lia|done].
    + rewrite path_energy_S, path_energy_app_l, Hp by lia. simpl.
      assert (vec_at (p ++ [j]) (Z.of_nat k + 1) = Ok j) as ->.
      { apply vec_at_snoc. right. split; [lia|done]. }
      simpl. by rewrite Hat_e.
Qed.

(** The first smallest element of a list without an element smaller than
    its head is the head. *)
Lemma min_scan_head l i best smallest :
  Forall (fun y => ltb y smallest = false) l →
  min_scan ltb l i best smallest = best.
Proof.
  intros Hall. revert i. induction Hall as [|y l Hy _ IH]; intros i; [done|].
  simpl. rewrite Hy. apply IH.
Qed.

Hypothesis ltb_asym : ∀ a b, ltb a b = true → ltb b a = false.

(** On a field whose rows are constant, the rows of the cost table are
    constant and no stored offset leaves the column. *)
Lemma constant_rows_cost energy cost back H W (k : nat) :
  shape energy H W → dp_done add ltb energy H W cost back →
  (∀ i j j' x y, mat_at energy i j = Ok x → mat_at energy i j' = Ok y →
                 x = y) →
  Z.of_nat k < H →
  (∀ j j' x y, mat_at cost (Z.of_nat k) j = Ok x →
               mat_at cost (Z.of_nat k) j' = Ok y → x = y) ∧
  (1 ≤ Z.of_nat k → ∀ j, 0 ≤ j < W → mat_at back (Z.of_nat k) j = Ok 0).
Proof.
  intros He (Hc & _ & Hrow0 & Hcells) Hconst.
  assert (cols energy = W) as HW by apply He.
  induction k as [|k IH]; intros Hk.
  - split; [|lia]. intros j j' x y. simpl. rewrite !Hrow0. apply Hconst.
  - destruct IH as [IH _]; [lia|].
    replace (Z.of_nat (Datatypes.S k)) with (Z.of_nat k + 1) by lia.
    assert (∀ j, 0 ≤ j < W → ∃ e c,
      mat_at energy (Z.of_nat k + 1) j = Ok e ∧
      mat_at cost (Z.of_nat k) j = Ok c ∧
      mat_at cost (Z.of_nat k + 1) j = Ok (add e c) ∧
      mat_at back (Z.of_nat k + 1) j = Ok 0) as Hcell.
    { intros j Hj.
      destruct (Hcells (Z.of_nat k + 1) j)
        as (e & mc & off & Hat_e & Hcell & Hat_c & Hoff); [lia|done|].
      rewrite HW in Hcell.
      apply dp_cell_inv in Hcell as (c & Hat & Hcases).
      replace (Z.of_nat k + 1 - 1) with (Z.of_nat k) in * by lia.
      assert (∀ x, ltb x x = false) as Hirr.
      { intros x. destruct (ltb x x) eqn:Hx; [|done].
        by rewrite (ltb_asym x x) in Hx. }
      exists e, c. split; [done|]. split; [done|].
      destruct Hcases as [(-> & -> & _)|[(_ & _ & Hl & Hlt & _)|
        [(_ & _ & Hr & Hlt & _)|(_ & _ & _ & _ & l & Hl & Hlt & _)]]];
        [done|..].
      - rewrite (IH _ _ _ _ Hl Hat), Hirr in Hlt. done.
      - rewrite (IH _ _ _ _ Hr Hat), Hirr in Hlt. done.
      - rewrite (IH _ _ _ _ Hl Hat), Hirr in Hlt. done. }
    split.
    + intros j j' x y Hx Hy.
      destruct (mat_at_range _ _ _ _ _ _ Hc Hx) as [_ Hj].
      destruct (mat_at_range _ _ _ _ _ _ Hc Hy) as [_ Hj'].
      destruct (Hcell j Hj) as (e & c & He' & Hc' & Hx' & _).
      destruct (Hcell j' Hj') as (e' & c' & He'' & Hc'' & Hy' & _).
      rewrite (Hconst _ _ _ _ _ He' He''), (IH _ _ _ _ Hc' Hc'') in Hx'.
      congruence.
    + intros _ j Hj. by destruct (Hcell j Hj) as (e & c & _ & _ & _ & ?).
Qed.

End CostTableFacts.

Section CostTableOrder.
Context {E : Type}.
Variable add : E → E → E.
Variable ltb : E → E → bool.
Variable junk : Z → Z → Z.

Hypothesis ltb_asym : ∀ a b, ltb a b = true → ltb b a = false.
Hypothesis ltb_negtrans :
  ∀ a b c, ltb a b = false → ltb b c = false → ltb a c = false.
Hypothesis add_mono :
  ∀ e a b, ltb a b = false → ltb (add e a) (add e b) = false.

(** No path that stays in the grid and moves by at most one column per row
    is cheaper, down to a row, than the cost of the cell it reaches there. *)
Lemma path_prefix_lower_bound energy cost back H W p (k : nat) s :
  shape energy H W → dp_done add ltb energy H W cost back →
  (∀ i c, vec_at p i = Ok c → 0 ≤ c < W) →
  (∀ i c c', vec_at p i = Ok c → vec_at p (i + 1) = Ok c' →
     Z.abs (c' - c) ≤ 1) →
  Z.of_nat k < H →
  path_energy add energy p k = Ok s →
  ∃ c m, vec_at p (Z.of_nat k) = Ok c ∧ mat_at cost (Z.of_nat k) c = Ok m ∧
         ltb s m = false.
Proof.
  intros He (Hc & _ & Hrow0 & Hcells) Hin Hadj.
  assert (cols energy = W) as HW by apply He.
  revert s. induction k as [|k IH]; intros s Hk Hpath.
  - simpl in Hpath. apply bind_Ok in Hpath as (c & Hat & Hs).
    exists c, s. split; [done|]. rewrite Hrow0. split; [done|].
    by apply ltb_irrefl.
  - rewrite path_energy_S in Hpath.
    apply bind_Ok in Hpath as (s' & Hpath & Hrest).
    apply bind_Ok in Hrest as (c & Hat & Hrest).
    apply bind_Ok in Hrest as (e & Hat_e & [= <-]).
    destruct (IH s') as (c' & m' & Hat' & Hm' & Hle); [lia|done|].
    replace (Z.of_nat (Datatypes.S k)) with (Z.of_nat k + 1) by lia.
    destruct (Hcells (Z.of_nat k + 1) c)
      as (e' & mc & off & Hat_e' & Hcell & Hat_c & _); [lia|by eapply Hin|].
    assert (e' = e) as -> by congruence.
    exists c, (add e mc). split; [done|]. split; [done|].
    apply add_mono. apply (ltb_negtrans _ m'); [done|].
    rewrite HW in Hcell.
    apply (dp_cell_min ltb ltb_asym ltb_negtrans cost H W _ _ _ _ Hc Hcell
             (c' - c)).
    + pose proof (Hadj _ _ _ Hat' Hat). lia.
    + replace (Z.of_nat k + 1 - 1) with (Z.of_nat k) by lia.
      by replace (c + (c' - c)) with c' by lia.
Qed.

(** X3.  Every entry of the cost table is the smallest energy of the vertical
    paths that start in the first row and end in its cell: one such path has
    that energy and none has a smaller one. *)
Theorem cost_table_minimal (energy : Mat E) H W :
  shape energy H W → 1 ≤ H → 1 ≤ W →
  ∃ cost back,
    dp_table add ltb junk energy = Ok (cost, back) ∧
    ∀ i j, 0 ≤ i < H → 0 ≤ j < W →
      ∃ c, mat_at cost i j = Ok c ∧
        (∃ p, vertical_path (i + 1) W p ∧ vec_at p i = Ok j ∧
              path_energy add energy p (Z.to_nat i) = Ok c) ∧
        (∀ p s, vertical_path (i + 1) W p → vec_at p i = Ok j →
                path_energy add energy p (Z.to_nat i) = Ok s →
                ltb s c = false).
Proof.
  intros He HH HW.
  destruct (dp_table_spec add ltb junk energy H W)
    as (cost & back & Hdp & Hdone); [done..|].
  exists cost, back. split; [done|]. intros i j Hi Hj.
  destruct (cost_attained add ltb energy cost back H W (Z.to_nat i) j)
    as (p & c & Hp & Hend & Hcost & Henergy); [done|done|lia|done|].
  replace (Z.of_nat (Z.to_nat i)) with i in * by lia.
  exists c. split; [done|]. split; [by exists p|].
  intros q s (_ & Hin & Hadj) Hq Hs.
  destruct (path_prefix_lower_bound energy cost back H W q (Z.to_nat i) s)
    as (c' & m & Hc' & Hm & Hle); [done..|lia|done|].
  replace (Z.of_nat (Z.to_nat i)) with i in * by lia.
  assert (c' = j) as -> by congruence. by assert (m = c) as -> by congruence.
Qed.

(** X4.  The tables that the two loops leave: the first row of the cost table is
    the first row of the field; below it, every stored offset is −1, 0 or 1
    and points at a cheapest predecessor inside the row above, and the cost
    of a cell is the energy of the cell added to the cost of that
    predecessor. *)
Theorem dp_table_recurrence (energy : Mat E) H W :
  shape energy H W → 1 ≤ H → 1 ≤ W →
  ∃ cost back,
    dp_table add ltb junk energy = Ok (cost, back) ∧
    shape cost H W ∧ shape back H W ∧
    (∀ j, mat_at cost 0 j = mat_at energy 0 j) ∧
    ∀ i j, 1 ≤ i < H → 0 ≤ j < W →
      ∃ e m off,
        mat_at energy i j = Ok e ∧ mat_at back i j = Ok off ∧
        -1 ≤ off ≤ 1 ∧ mat_at cost (i - 1) (j + off) = Ok m ∧
        is_min ltb cost i j m ∧ mat_at cost i j = Ok (add e m).
Proof.
  intros He HH HW. assert (cols energy = W) as Hcols by apply He.
  destruct (dp_table_spec add ltb junk energy H W)
    as (cost & back & Hdp & Hdone); [done..|].
  pose proof Hdone as (Hc & Hb & Hrow0 & Hcells).
  exists cost, back. do 4 (split; [done|]). intros i j Hi Hj.
  pose proof (Hcells i j Hi Hj) as Hcell.
  destruct (cell_ok_link add ltb energy cost back H W i j)
    as (e & m & off & Hat_e & Hat_c & Hoff & Hrange & _ & Hm); [done..|].
  destruct Hcell as (e' & m' & off' & _ & Hcell & Hat_c' & _).
  rewrite Hcols in Hcell.
  pose proof (dp_cell_min ltb ltb_asym ltb_negtrans cost H W _ _ _ _ Hc Hcell)
    as Hmin.
  pose proof (Hmin off m Hrange Hm) as Hle.
  exists e, m, off. do 4 (split; [done|]). split; [|done].
  intros d y Hd Hy. apply (ltb_negtrans _ m'); [by apply (Hmin d)|].
  pose proof (dp_cell_inv ltb _ _ _ _ _ _ Hcell) as (c & Hc' & Hcases).
  assert (off' = off) as ->.
  { destruct (Hcells i j Hi Hj) as (? & ? & ? & _ & ? & _ & ?). congruence. }
  assert (m' = m) as ->; [|by apply ltb_irrefl].
  replace (j + off) with
    (if decide (off = 0) then j else if decide (off = -1) then j - 1
     else j + 1) in Hm by (repeat case_decide; lia).
  destruct Hcases as [(-> & -> & _)|[(-> & _ & ? & _)|[(-> & _ & ? & _)|
    (-> & _ & _ & ? & _)]]]; simpl in Hm; congruence.
Qed.

(** X5.  On a field of one row, the seam is the column of the first smallest
    sample of the row. *)
Theorem findSeam_one_row (energy : Mat E) W row :
  shape energy 1 W → 1 ≤ W → mat_ptr energy 0 = Ok row →
  ∃ j m,
    findSeam add ltb junk energy = Ok [j] ∧ vec_at row j = Ok m ∧
    (∀ k y, vec_at row k = Ok y → ltb y m = false) ∧
    (∀ k y, k < j → vec_at row k = Ok y → ltb m y = true).
Proof.
  intros He HW Hrow.
  destruct (findSeam_spec add ltb junk energy 1 W)
    as (cost & back & last & seam & _ & Hdone & Hlast & Hlen & Hfind & Hseam);
    [done..|].
  destruct Hdone as (_ & _ & Hrow0 & _).
  assert (last = row) as ->.
  { apply vec_at_ext. intros k. specialize (Hrow0 k). unfold mat_at in Hrow0.
    replace (1 - 1) with 0 in Hlast by lia. by rewrite Hlast, Hrow in Hrow0. }
  destruct (min_element_spec ltb ltb_asym ltb_negtrans row)
    as (m & Hm & Hmin & Hfirst).
  { intros ->. simpl in Hlen. lia. }
  exists (min_element ltb row), m. split; [|done].
  destruct Hseam as (Hlen' & Hstart & _). rewrite Hfind. f_equal.
  destruct seam as [|x [|y seam]]; simpl in Hlen'; [lia| |lia].
  cbv in Hstart. by simplify_eq.
Qed.

(** X6.  On a field whose rows are constant (a uniform image, for one), every tie
    is broken to the left: the seam is the first column, in every row. *)
Theorem findSeam_constant_rows (energy : Mat E) H W :
  shape energy H W → 1 ≤ H → 1 ≤ W →
  (∀ i j j' x y, mat_at energy i j = Ok x → mat_at energy i j' = Ok y →
                 x = y) →
  findSeam add ltb junk energy = Ok (replicate (Z.to_nat H) 0).
Proof.
  intros He HH HW Hconst.
  destruct (findSeam_spec add ltb junk energy H W)
    as (cost & back & last & seam & _ & Hdone & Hlast & Hlen & Hfind & Hseam);
    [done..|].
  assert (∀ k : Z, 0 ≤ k < H →
    (∀ j j' x y, mat_at cost k j = Ok x → mat_at cost k j' = Ok y → x = y) ∧
    (1 ≤ k → ∀ j, 0 ≤ j < W → mat_at back k j = Ok 0)) as Hrows.
  { intros k Hk.
    pose proof (constant_rows_cost add ltb ltb_asym energy cost back H W
                  (Z.to_nat k) He Hdone Hconst) as Hk'.
    replace (Z.of_nat (Z.to_nat k)) with k in Hk' by lia. apply Hk'. lia. }
  assert (min_element ltb last = 0) as Hmin.
  { destruct last as [|x last]; [done|]. simpl. apply min_scan_head.
    apply Forall_lookup_2. intros n y Hy.
    destruct (Hrows (H - 1)) as [Hlast_const _]; [lia|].
    assert (y = x) as ->; [|by apply ltb_irrefl].
    apply (Hlast_const (Z.of_nat (Datatypes.S n)) 0); unfold mat_at;
      rewrite Hlast; simpl; [|done].
    apply vec_at_Ok. split; [lia|]. by rewrite Nat2Z.id. }
  rewrite Hmin in Hseam. rewrite Hfind. f_equal.
  apply (seam_from_agree back back H W 0); [done|done|].
  assert (∀ i, 0 ≤ i < H →
    vec_at (replicate (Z.to_nat H) 0) i = Ok 0) as Hzero.
  { intros i Hi. apply vec_at_Ok. split; [lia|].
    apply lookup_replicate_2. lia. }
  split; [rewrite length_replicate; lia|]. split; [apply Hzero; lia|]. split.
  - intros i Hi. exists 0. split; [by apply Hzero|lia].
  - intros i Hi. exists 0, 0. split; [apply Hzero; lia|].
    split; [|apply Hzero; lia]. destruct (Hrows (i + 1)) as [_ Hback]; [lia|].
    apply Hback; lia.
Qed.

End CostTableOrder.

(** ** The energy field *)

Section EnergyFacts.
Context {G E : Type}.
Variable add : E → E → E.
Variable ltb : E → E → bool.
Variable absE : E → E.
Variable cvtColor : Mat Vec3b → outcome (Mat G).
Variable Sobel : Mat G → Z → Z → outcome (Mat E).

Lemma mat_at_lookup {A} (m : Mat A) i j x :
  mat_at m i j = Ok x ↔
  0 ≤ i ∧ 0 ≤ j ∧
  ∃ r, data m !! Z.to_nat i = Some r ∧ r !! Z.to_nat j = Some x.
Proof.
  unfold mat_at. rewrite bind_Ok. split.
  - intros (r & Hr & Hx). apply vec_at_Ok in Hx as [Hj Hx].
    destruct (data m) as [|r0 d] eqn:Hd.
    + rewrite mat_ptr_no_rows in Hr by done. case_decide; [|done].
      by simplify_eq.
    + rewrite mat_ptr_rows in Hr by congruence. rewrite Hd in Hr.
      apply vec_at_Ok in Hr as [Hi Hr]. eauto.
  - intros (Hi & Hj & r & Hr & Hx). exists r.
    split; [|by apply vec_at_Ok].
    rewrite mat_ptr_rows by (by intros Hnil; rewrite Hnil in Hr).
    by apply vec_at_Ok.
Qed.

Lemma mat_at_abs (m : Mat E) i j y :
  mat_at (mat_abs absE m) i j = Ok y ↔
  ∃ x, mat_at m i j = Ok x ∧ y = absE x.
Proof.
  rewrite mat_at_lookup. setoid_rewrite mat_at_lookup. simpl. split.
  - intros (Hi & Hj & r & Hr & Hy).
    rewrite list_lookup_fmap in Hr. apply fmap_Some in Hr as (r' & Hr' & ->).
    rewrite list_lookup_fmap in Hy. apply fmap_Some in Hy as (x & Hx & ->).
    exists x. eauto 10.
  - intros (x & (Hi & Hj & r & Hr & Hx) & ->).
    split; [done|]. split; [done|]. exists (absE <$> r).
    by rewrite !list_lookup_fmap, Hr, Hx.
Qed.

Lemma mat_at_add (a b m : Mat E) i j z :
  mat_add add a b = Ok m →
  mat_at m i j = Ok z ↔
  ∃ x y, mat_at a i j = Ok x ∧ mat_at b i j = Ok y ∧ z = add x y.
Proof.
  unfold mat_add. case_decide; [|done]. intros [= <-].
  rewrite mat_at_lookup. setoid_rewrite mat_at_lookup. simpl. split.
  - intros (Hi & Hj & r & Hr & Hz).
    apply lookup_zip_with_Some in Hr as (ra & rb & -> & Hra & Hrb).
    apply lookup_zip_with_Some in Hz as (x & y & -> & Hx & Hy).
    exists x, y. eauto 15.
  - intros (x & y & (Hi & Hj & ra & Hra & Hx) & (_ & _ & rb & Hrb & Hy) & ->).
    split; [done|]. split; [done|]. exists (zip_with add ra rb).
    split; apply lookup_zip_with_Some; eauto.
Qed.

(** A run of [computeEnergy] that returns called [cvtColor] once and
    [Sobel] twice on its result, and a sample of the field is the sum of the
    absolute values of the two gradients at its place. *)
Lemma computeEnergy_inv image energy :
  computeEnergy add absE cvtColor Sobel image = Ok energy →
  ∃ gray grad_x grad_y,
    cvtColor image = Ok gray ∧ Sobel gray 1 0 = Ok grad_x ∧
    Sobel gray 0 1 = Ok grad_y ∧
    rows energy = rows grad_x ∧ cols energy = cols grad_x ∧
    ∀ i j e, mat_at energy i j = Ok e ↔
      ∃ x y, mat_at grad_x i j = Ok x ∧ mat_at grad_y i j = Ok y ∧
             e = add (absE x) (absE y).
Proof.
  unfold computeEnergy.
  intros (gray & Hgray & Hrest)%bind_Ok.
  apply bind_Ok in Hrest as (gx & Hgx & Hrest).
  apply bind_Ok in Hrest as (gy & Hgy & Hadd).
  exists gray, gx, gy. do 3 (split; [done|]).
  split; [|split].
  - unfold mat_add in Hadd. case_decide; [|done]. by simplify_eq.
  - unfold mat_add in Hadd. case_decide; [|done]. by simplify_eq.
  - intros i j e. rewrite (mat_at_add _ _ _ i j e Hadd). split.
    + intros (x' & y' & (x & Hx & ->)%mat_at_abs & (y & Hy & ->)%mat_at_abs
              & ->). by exists x, y.
    + intros (x & y & Hx & Hy & ->). exists (absE x), (absE y).
      split; [apply mat_at_abs; eauto|]. split; [apply mat_at_abs; eauto|done].
Qed.

End EnergyFacts.

(** ** The output path of [main] *)

Section PathFacts.
Implicit Types (s chars : list ascii).

Lemma find_last_of_from_None s chars pos :
  find_last_of_from s chars pos = None ↔ Forall (fun c => c ∉ chars) s.
Proof.
  revert pos. induction s as [|c s IH]; intros pos; simpl.
  - split; [by constructor|done].
  - destruct (find_last_of_from s chars (Datatypes.S pos)) as [p|] eqn:Hrec.
    + split; [done|]. intros [_ Hs]%Forall_cons.
      apply (IH (Datatypes.S pos)) in Hs. congruence.
    + apply IH in Hrec. case_bool_decide as Hc.
      * split; [done|]. by intros [? _]%Forall_cons.
      * split; [by constructor|done].
Qed.

Lemma find_last_of_from_Some s chars pos p :
  find_last_of_from s chars pos = Some p →
  (pos ≤ p)%nat ∧
  ∃ c, s !! (p - pos)%nat = Some c ∧ c ∈ chars ∧
       Forall (fun c => c ∉ chars) (drop (Datatypes.S (p - pos)) s).
Proof.
  revert pos. induction s as [|c s IH]; intros pos; simpl; [done|].
  destruct (find_last_of_from s chars (Datatypes.S pos)) as [p'|] eqn:Hrec.
  - intros [= ->]. destruct (IH _ Hrec) as (Hle & c' & Hc' & Hin & Hrest).
    split; [lia|]. exists c'.
    replace (p - pos)%nat with (Datatypes.S (p - Datatypes.S pos)) by lia.
    done.
  - apply find_last_of_from_None in Hrec. case_bool_decide; [|done].
    intros [= ->]. split; [done|]. exists c. by rewrite Nat.sub_diag.
Qed.

Lemma find_last_of_Some s chars p :
  find_last_of s chars = Some p →
  ∃ c, s !! p = Some c ∧ c ∈ chars ∧
       Forall (fun c => c ∉ chars) (drop (Datatypes.S p) s).
Proof.
  intros (_ & c & Hc)%find_last_of_from_Some.
  rewrite Nat.sub_0_r in Hc. by exists c.
Qed.

(** X14.  The directory that [main] creates always ends in a slash or a
    backslash. *)
Theorem output_path_ends_in_separator (outputImage : list ascii) :
  ∃ c, last (output_path outputImage) = Some c ∧ c ∈ str "/\".
Proof.
  unfold output_path.
  destruct (find_last_of outputImage (str "/\")) as [p|] eqn:Hfind.
  - apply find_last_of_Some in Hfind as (c & Hc & Hin & _).
    exists c. split; [|done]. apply lookup_lt_Some in Hc as Hlt.
    rewrite last_lookup, length_take, lookup_take_lt by lia.
    by replace (Nat.pred (Nat.min (p + 1) (length outputImage))) with p by lia.
  - exists "/"%char. split; [done|]. apply list_elem_of_In. simpl. by left.
Qed.

(** X15.  The directory and the file name make up the name of the output file:
    when the name holds a slash or a backslash it is the directory followed
    by a file name without any, and when it holds none the directory is
    "./". *)
Theorem output_path_split (outputImage : list ascii) :
  (Forall (fun c => c ∉ str "/\") outputImage ∧
   output_path outputImage = str "./") ∨
  (∃ file, outputImage = output_path outputImage ++ file ∧
           Forall (fun c => c ∉ str "/\") file ∧
           ∃ c, c ∈ outputImage ∧ c ∈ str "/\").
Proof.
  unfold output_path.
  destruct (find_last_of outputImage (str "/\")) as [p|] eqn:Hfind.
  - right. apply find_last_of_Some in Hfind as (c & Hc & Hin & Hrest).
    exists (drop (p + 1) outputImage). split; [by rewrite take_drop|].
    split; [by replace (p + 1)%nat with (Datatypes.S p) by lia|].
    exists c. split; [|done]. by eapply list_elem_of_lookup_2.
  - left. split; [|done]. by apply find_last_of_from_None in Hfind.
Qed.

End PathFacts.

(** ** The samples of the energy field *)

Section EnergyField.
Context {G E : Type}.
Variable add : E → E → E.
Variable ltb : E → E → bool.
Variable absE : E → E.
Variable cvtColor : Mat Vec3b → outcome (Mat G).
Variable Sobel : Mat G → Z → Z → outcome (Mat E).
Variable zero : E.

(** For doubles: [|x| < 0] never holds, and a sum of two numbers that are
    not below zero is not below zero. *)
Hypothesis abs_not_negative : ∀ x, ltb (absE x) zero = false.
Hypothesis add_not_negative :
  ∀ a b, ltb a zero = false → ltb b zero = false → ltb (add a b) zero = false.

(** X2.  No sample of the field that [computeEnergy] returns is below zero. *)
Theorem computeEnergy_not_negative (image : Mat Vec3b) energy i j e :
  computeEnergy add absE cvtColor Sobel image = Ok energy →
  mat_at energy i j = Ok e →
  ltb e zero = false.
Proof.
  intros Henergy He.
  destruct (computeEnergy_inv add absE cvtColor Sobel image energy Henergy)
    as (gray & gx & gy & _ & _ & _ & _ & _ & Hcells).
  apply Hcells in He as (x & y & _ & _ & ->).
  by apply add_not_negative.
Qed.

Hypothesis cvtColor_shape : ∀ image H W,
  shape image H W → 1 ≤ H → 1 ≤ W →
  ∃ gray, cvtColor image = Ok gray ∧ shape gray H W.
Hypothesis Sobel_shape : ∀ gray dx dy H W,
  shape gray H W → 1 ≤ H → 1 ≤ W →
  ∃ grad, Sobel gray dx dy = Ok grad ∧ shape grad H W.

(** X1.  On an image of [H ≥ 1] rows and [W ≥ 1] columns [computeEnergy] returns
    a field of the same size, and the sample of a pixel is [|gx| + |gy|],
    for the horizontal and the vertical Sobel derivative [gx] and [gy] of
    the grey image at that pixel. *)
Theorem computeEnergy_samples (image : Mat Vec3b) H W :
  shape image H W → 1 ≤ H → 1 ≤ W →
  ∃ gray grad_x grad_y energy,
    cvtColor image = Ok gray ∧
    Sobel gray 1 0 = Ok grad_x ∧ Sobel gray 0 1 = Ok grad_y ∧
    computeEnergy add absE cvtColor Sobel image = Ok energy ∧
    shape energy H W ∧
    ∀ i j, 0 ≤ i < H → 0 ≤ j < W →
      ∃ x y, mat_at grad_x i j = Ok x ∧ mat_at grad_y i j = Ok y ∧
             mat_at energy i j = Ok (add (absE x) (absE y)).
Proof.
  intros Him HH HW.
  destruct (computeEnergy_shape add absE cvtColor Sobel
              cvtColor_shape Sobel_shape image H W)
    as (energy & Henergy & He); [done..|].
  destruct (computeEnergy_inv add absE cvtColor Sobel image energy Henergy)
    as (gray & gx & gy & Hgray & Hgx & Hgy & _ & _ & Hcells).
  exists gray, gx, gy, energy. do 5 (split; [done|]). intros i j Hi Hj.
  destruct (mat_at_in energy H W i j He Hi Hj) as (e & Hat).
  pose proof Hat as Hat'. apply Hcells in Hat' as (x & y & Hx & Hy & ->).
  by exists x, y.
Qed.

End EnergyField.

(** ** The failures of [findSeam] and [removeSeam] *)

Section Failures.




End Failures.

(** ** What [removeSeam] keeps *)

Section RemoverKeeps.
Variable junk : Z → Z → Vec3b.

(** X8.  Putting the pixel of the seam back into a row of the result gives the
    row of the input: nothing but the seam is lost, and the order of the
    pixels is kept. *)
Theorem removeSeam_reinsert (image : Mat Vec3b) seam H W :
  shape image H W → 1 ≤ W →
  (∀ i, 0 ≤ i < H → ∃ s, vec_at seam i = Ok s ∧ 0 ≤ s < W) →
  ∃ out,
    removeSeam junk image seam = Ok out ∧
    ∀ i s row, 0 ≤ i < H → vec_at seam i = Ok s → mat_ptr image i = Ok row →
      ∃ orow px,
        mat_ptr out i = Ok orow ∧ vec_at row s = Ok px ∧
        take (Z.to_nat s) orow ++ px :: drop (Z.to_nat s) orow = row.
Proof.
  intros Him HW Hseam.
  destruct (removeSeam_rows junk image seam H W)
    as (out & Hout & _ & Hrows); [done..|].
  exists out. split; [done|]. intros i s row Hi Hs Hrow.
  destruct (Hseam i Hi) as (s' & Hs' & Hrange).
  assert (s' = s) as -> by congruence.
  destruct (mat_ptr_in image H W i) as (row' & Hrow' & Hlen); [done..|].
  assert (row' = row) as -> by congruence.
  destruct (vec_at_in row s) as [px Hpx]; [lia|].
  exists (delete (Z.to_nat s) row), px.
  split; [by apply (Hrows i s row)|]. split; [done|].
  apply vec_at_Ok in Hpx as [_ Hpx].
  assert (length (take (Z.to_nat s) row) = Z.to_nat s) as Hprefix
    by (rewrite length_take; lia).
  rewrite delete_take_drop, take_app_length', drop_app_length' by done.
  by apply take_drop_middle.
Qed.

(** X9.  Every pixel of the result is written: the result does not depend on what
    the fresh matrix held. *)
Theorem removeSeam_overwrites (junk' : Z → Z → Vec3b) (image : Mat Vec3b)
    seam H W :
  shape image H W → 1 ≤ W →
  (∀ i, 0 ≤ i < H → ∃ s, vec_at seam i = Ok s ∧ 0 ≤ s < W) →
  removeSeam junk image seam = removeSeam junk' image seam.
Proof. apply removeSeam_junk_irrelevant. Qed.

End RemoverKeeps.

(** ** What [seamCarving] keeps *)

Section DriverKeeps.
Context {G E : Type}.
Variable add : E → E → E.
Variable ltb : E → E → bool.
Variable absE : E → E.
Variable cvtColor : Mat Vec3b → outcome (Mat G).
Variable Sobel : Mat G → Z → Z → outcome (Mat E).
Variable junk_int : Z → Z → Z.
Variable junk_px : Z → Z → Vec3b.

Hypothesis cvtColor_shape : ∀ image H W,
  shape image H W → 1 ≤ H → 1 ≤ W →
  ∃ gray, cvtColor image = Ok gray ∧ shape gray H W.
Hypothesis Sobel_shape : ∀ gray dx dy H W,
  shape gray H W → 1 ≤ H → 1 ≤ W →
  ∃ grad, Sobel gray dx dy = Ok grad ∧ shape grad H W.

(** On an image with a pixel [seamCarving] returns an image with a pixel,
    whatever the number of seams. *)
Lemma seamCarving_total image N H W :
  shape image H W → 1 ≤ H → 1 ≤ W →
  ∃ out W',
    seamCarving add ltb absE cvtColor Sobel junk_int junk_px image N
      = (if decide (N >= W) then [ExceedsWidth N W] else [], Ok out) ∧
    shape out H W' ∧ 1 ≤ W' ∧
    W' = (if decide (0 ≤ N < W) then W - N else W) ∧
    (¬ 0 ≤ N < W → out = image).
Proof.
  intros Him HH HW. assert (cols image = W) as Hcols by apply Him.
  destruct (decide (0 ≤ N < W)) as [HN|HN].
  - destruct (seamCarving_spec add ltb absE cvtColor Sobel junk_int junk_px
                cvtColor_shape Sobel_shape image N H W)
      as (out & Hrun & Hout); [done..|].
    exists out, (W - N). rewrite decide_False by lia.
    split; [done|]. split; [done|]. split; [lia|]. done.
  - exists image, W. split; [|split; [done|split; [done|done]]].
    unfold seamCarving. rewrite Hcols. case_decide.
    + by rewrite (clone_eq image H W).
    + by rewrite for_range_empty by lia.
Qed.

(** X11.  Every row of the result of [seamCarving] is a sublist of the row of the
    input: the pixels that are left are pixels of the input, in their
    order. *)
Theorem seamCarving_rows_sublists (image : Mat Vec3b) N H W :
  shape image H W → 1 ≤ H → 0 ≤ N < W →
  ∃ out,
    seamCarving add ltb absE cvtColor Sobel junk_int junk_px image N
      = ([], Ok out) ∧
    Forall2 sublist (data out) (data image).
Proof.
  intros Him HH HN.
  destruct (seamCarving_rows add ltb absE cvtColor Sobel junk_int junk_px
              cvtColor_shape Sobel_shape image N H W)
    as (out & Hrun & _ & Hsub); [done..|].
  by exists out.
Qed.

(** X12.  The result of [seamCarving] does not depend on what the matrices that
    [findSeam] and [removeSeam] allocate held. *)
Theorem seamCarving_initialised junk_int' junk_px' (image : Mat Vec3b)
    N H W :
  shape image H W → 1 ≤ H → 1 ≤ W →
  seamCarving add ltb absE cvtColor Sobel junk_int junk_px image N
    = seamCarving add ltb absE cvtColor Sobel junk_int' junk_px' image N.
Proof.
  apply (seamCarving_junk_irrelevant add ltb absE cvtColor Sobel
           junk_int junk_px cvtColor_shape Sobel_shape).
Qed.

(** X13.  Removing [N + M] seams is removing [N] seams and then [M] seams from the
    result. *)
Theorem seamCarving_compose (image : Mat Vec3b) N M H W :
  shape image H W → 1 ≤ H → 0 ≤ N → 0 ≤ M → N + M < W →
  ∃ mid,
    seamCarving add ltb absE cvtColor Sobel junk_int junk_px image N
      = ([], Ok mid) ∧
    seamCarving add ltb absE cvtColor Sobel junk_int junk_px image (N + M)
      = seamCarving add ltb absE cvtColor Sobel junk_int junk_px mid M.
Proof.
  intros Him HH HN HM HNM. assert (cols image = W) as Hcols by apply Him.
  destruct (seamCarving_spec add ltb absE cvtColor Sobel junk_int junk_px
              cvtColor_shape Sobel_shape image N H W)
    as (mid & Hrun & Hmid); [done|done|lia|].
  exists mid. split; [done|].
  assert (cols mid = W - N) as Hcols' by apply Hmid.
  unfold seamCarving in *. rewrite Hcols in *. rewrite Hcols'.
  rewrite decide_False in Hrun by lia. rewrite !decide_False by lia.
  f_equal. rewrite (for_range_split 0 N (N + M)) by lia.
  injection Hrun as ->. simpl. unfold for_range.
  replace (N + M - N) with (M - 0) by lia.
  by apply iter_up_shift.
Qed.

End DriverKeeps.

(** ** The runs of [main] *)

Section PathFactsMore.

Lemma find_last_of_from_snoc (s chars : list ascii) c pos :
  c ∈ chars →
  find_last_of_from (s ++ [c]) chars pos = Some (pos + length s)%nat.
Proof.
  intros Hc. revert pos. induction s as [|x s IH]; intros pos; simpl.
  - rewrite bool_decide_true by done. f_equal. lia.
  - rewrite IH. f_equal. lia.
Qed.

(** X16.  The directory of a directory is the directory itself. *)
Theorem output_path_idempotent (outputImage : list ascii) :
  output_path (output_path outputImage) = output_path outputImage.
Proof.
  unfold output_path at 2 3.
  destruct (find_last_of outputImage (str "/\")) as [p|] eqn:Hfind; [|done].
  apply find_last_of_Some in Hfind as (c & Hc & Hin & _).
  apply lookup_lt_Some in Hc as Hlt.
  replace (p + 1)%nat with (Datatypes.S p) by lia.
  rewrite (take_S_r _ _ c) by done.
  unfold output_path, find_last_of.
  rewrite find_last_of_from_snoc by done. simpl.
  rewrite length_take, Nat.min_l by lia.
  apply take_ge. rewrite length_app, length_take. simpl. lia.
Qed.

End PathFactsMore.

Section MainFacts.
Context {G E : Type}.
Variable add : E → E → E.
Variable ltb : E → E → bool.
Variable absE : E → E.
Variable cvtColor : Mat Vec3b → outcome (Mat G).
Variable Sobel : Mat G → Z → Z → outcome (Mat E).
Variable junk_int : Z → Z → Z.
Variable junk_px : Z → Z → Vec3b.
Variable imread : list ascii → Mat Vec3b.
Variable create_directories : list ascii → outcome bool.
Variable imwrite : list ascii → Mat Vec3b → outcome bool.

Hypothesis cvtColor_shape : ∀ image H W,
  shape image H W → 1 ≤ H → 1 ≤ W →
  ∃ gray, cvtColor image = Ok gray ∧ shape gray H W.
Hypothesis Sobel_shape : ∀ gray dx dy H W,
  shape gray H W → 1 ≤ H → 1 ≤ W →
  ∃ grad, Sobel gray dx dy = Ok grad ∧ shape grad H W.

#[local] Abbreviation carve := (seamCarving add ltb absE cvtColor Sobel junk_int junk_px).
#[local] Abbreviation run :=
  (main add ltb absE cvtColor Sobel junk_int junk_px imread
     create_directories imwrite).

Lemma mat_is_empty_shape {A} (m : Mat A) H W :
  shape m H W → mat_is_empty m = false ↔ 1 ≤ H ∧ 1 ≤ W.
Proof.
  intros (Hrows & Hcols & HW & Hlen & _). unfold mat_is_empty.
  rewrite bool_decide_eq_false. lia.
Qed.

(** The runs of [main] on an image with a pixel. *)
Lemma main_run inputImage N line H W :
  shape (imread inputImage) H W → 1 ≤ H → 1 ≤ W →
  ∃ resized W',
    carve (imread inputImage) N
      = (if decide (N >= W) then [ExceedsWidth N W] else [], Ok resized) ∧
    shape resized H W' ∧
    W' = (if decide (0 ≤ N < W) then W - N else W) ∧
    (¬ 0 ≤ N < W → resized = imread inputImage) ∧
    run inputImage N line =
      let name := output_name line in
      let log :=
        [PromptInput; OriginalSize W H; PromptSeams] ++
        (SeamCarvingSays <$>
           if decide (N >= W) then [ExceedsWidth N W] else []) ++
        [ResizedSize W' H; PromptOutput;
         CreateDirectories (output_path name)] in
      match create_directories (output_path name) with
      | Ok _ =>
          match imwrite name resized with
          | Ok true => (log ++ [ImWrite name resized; Completed name], Ok 0)
          | Ok false =>
              (log ++ [ImWrite name resized; FailedToSave name], Ok (-1))
          | Raise e => (log ++ [ImWrite name resized], Raise e)
          | Undefined => (log ++ [ImWrite name resized], Undefined)
          end
      | Raise e => (log, Raise e)
      | Undefined => (log, Undefined)
      end.
Proof.
  intros Him HH HW.
  destruct (seamCarving_total add ltb absE cvtColor Sobel junk_int junk_px
              cvtColor_shape Sobel_shape (imread inputImage) N H W)
    as (resized & W' & Hrun & Hout & HW' & HeqW' & Hsame); [done..|].
  exists resized, W'. do 4 (split; [done|]).
  unfold main. rewrite Hrun.
  rewrite (proj2 (mat_is_empty_shape _ H W Him)) by done.
  rewrite (proj2 (mat_is_empty_shape _ H W' Hout)) by done.
  destruct Him as (-> & -> & _), Hout as (-> & -> & _). simpl.
  destruct (create_directories _) as [b| |]; [|by rewrite <- ?app_assoc..].
  destruct (imwrite _ _) as [[|]| |]; by rewrite <- ?app_assoc.
Qed.

(** X17.  [main] returns 0 exactly when the image that was read has a pixel, the
    directory of the output file could be made ([create_directories] returned,
    with whatever value), and [imwrite] returned true on the image that
    [seamCarving] returned. *)
Theorem main_exit_code inputImage N line H W :
  shape (imread inputImage) H W →
  (run inputImage N line).2 = Ok 0 ↔
  1 ≤ H ∧ 1 ≤ W ∧
  (∃ made, create_directories (output_path (output_name line)) = Ok made) ∧
  ∃ resized,
    (carve (imread inputImage) N).2 = Ok resized ∧
    imwrite (output_name line) resized = Ok true.
Proof.
  intros Him. destruct (decide (1 ≤ H ∧ 1 ≤ W)) as [[HH HW]|Hempty].
  - destruct (main_run inputImage N line H W)
      as (resized & W' & Hcarve & _ & _ & _ & ->); [done..|].
    rewrite Hcarve. simpl. split.
    + destruct (create_directories _) as [made| |]; [|done..].
      destruct (imwrite _ _) as [[|]| |] eqn:Hwrite; [|done..].
      intros _. do 2 (split; [done|]). split; [by exists made|].
      by exists resized.
    + intros (_ & _ & [made ->] & resized' & [= <-] & ->). done.
  - split; [|intros (? & ? & _); lia].
    unfold main.
    destruct (mat_is_empty (imread inputImage)) eqn:Hnone; [done|].
    apply (mat_is_empty_shape _ H W Him) in Hnone. lia.
Qed.

(** X18.  [main] never prints that the resized image is empty: the test of
    [resizedImage.empty()] cannot succeed. *)
Theorem main_never_resized_empty inputImage N line H W :
  shape (imread inputImage) H W →
  ResizedEmpty ∉ (run inputImage N line).1.
Proof.
  intros Him. destruct (decide (1 ≤ H ∧ 1 ≤ W)) as [[HH HW]|Hempty].
  - destruct (main_run inputImage N line H W)
      as (resized & W' & _ & _ & _ & _ & ->); [done..|].
    assert (∀ l : list diagnostic, ResizedEmpty ∉ SeamCarvingSays <$> l)
      as Hsaid.
    { intros l (d & ? & _)%list_elem_of_fmap. done. }
    simpl. destruct (create_directories _) as [made| |];
      [destruct (imwrite _ _) as [[|]| |]|..]; simpl;
      repeat (rewrite elem_of_app || rewrite elem_of_cons
              || rewrite elem_of_nil);
      intros Hin; decompose [or] Hin; try done; by eapply Hsaid.
  - unfold main.
    destruct (mat_is_empty (imread inputImage)) eqn:Hnone.
    + simpl. rewrite !elem_of_cons, elem_of_nil.
      intros Hin; decompose [or] Hin; done.
    + apply (mat_is_empty_shape _ H W Him) in Hnone. lia.
Qed.

(** X19.  What a run of [main] that returns 0 did, in order: it printed the size
    of the input, the diagnostic of [seamCarving] when [N ≥ W], and the size
    of the result, which has the rows of the input and [W − N] columns for
    [0 ≤ N < W] and [W] columns otherwise; then it made the directory of the
    output file and wrote the result there. *)
Theorem main_success_run inputImage N line H W :
  shape (imread inputImage) H W →
  (run inputImage N line).2 = Ok 0 →
  ∃ resized W',
    (carve (imread inputImage) N).2 = Ok resized ∧
    shape resized H W' ∧
    W' = (if decide (0 ≤ N < W) then W - N else W) ∧
    (run inputImage N line).1 =
      [PromptInput; OriginalSize W H; PromptSeams] ++
      (SeamCarvingSays <$>
         if decide (N >= W) then [ExceedsWidth N W] else []) ++
      [ResizedSize W' H; PromptOutput;
       CreateDirectories (output_path (output_name line));
       ImWrite (output_name line) resized;
       Completed (output_name line)].
Proof.
  intros Him. destruct (decide (1 ≤ H ∧ 1 ≤ W)) as [[HH HW]|Hempty].
  - destruct (main_run inputImage N line H W)
      as (resized & W' & Hcarve & Hout & HW' & _ & ->); [done..|].
    simpl. intros Hzero. exists resized, W'. rewrite Hcarve.
    do 3 (split; [done|]).
    destruct (create_directories _) as [made| |]; [|done..].
    destruct (imwrite _ _) as [[|]| |]; [|done..].
    simpl. by rewrite <- !app_assoc.
  - unfold main.
    destruct (mat_is_empty (imread inputImage)) eqn:Hnone; [done|].
    apply (mat_is_empty_shape _ H W Him) in Hnone. lia.
Qed.

(** X20.  A number of seams that [seamCarving] refuses ([N ≥ W]) or ignores
    ([N < 0]) does not stop [main]: it writes the image that it read,
    unchanged, and returns 0 when the file could be written. *)
Theorem main_saves_input_unchanged inputImage N line H W made :
  shape (imread inputImage) H W → 1 ≤ H → 1 ≤ W → N >= W ∨ N < 0 →
  create_directories (output_path (output_name line)) = Ok made →
  imwrite (output_name line) (imread inputImage) = Ok true →
  run inputImage N line =
    ([PromptInput; OriginalSize W H; PromptSeams] ++
     (if decide (N >= W) then [SeamCarvingSays (ExceedsWidth N W)] else []) ++
     [ResizedSize W H; PromptOutput;
      CreateDirectories (output_path (output_name line));
      ImWrite (output_name line) (imread inputImage);
      Completed (output_name line)], Ok 0).
Proof.
  intros Him HH HW HN Hmade Hwrite.
  destruct (main_run inputImage N line H W)
    as (resized & W' & _ & _ & -> & Hsame & ->); [done..|].
  rewrite Hsame by lia. simpl.
  rewrite Hmade, Hwrite, (decide_False (P := 0 ≤ N < W)) by lia.
  case_decide; simpl; by rewrite <- ?app_assoc.
Qed.

End MainFacts.

(** ** The further properties on the examples *)

Lemma Z_abs_not_negative x : (Z.abs x <? 0) = false.
Proof. apply Z.ltb_ge. lia. Qed.

Lemma Z_add_not_negative a b :
  (a <? 0) = false → (b <? 0) = false → (a + b <? 0) = false.
Proof. rewrite !Z.ltb_ge. lia. Qed.

(** The seam [0, 2] has an entry for each of the two rows of [image23]. *)
Lemma seam02_defined i :
  0 ≤ i < 2 → ∃ s, vec_at [0; 2] i = Ok s ∧ 0 ≤ s < 3.
Proof.
  intros Hi. assert (i = 0 ∨ i = 1) as [-> | ->] by lia;
    eexists; (split; [reflexivity|lia]).
Qed.

(** The rows of the field [rows57] are constant. *)
Lemma rows57_constant i j j' x y :
  mat_at rows57 i j = Ok x → mat_at rows57 i j' = Ok y → x = y.
Proof.
  unfold rows57.
  intros (_ & _ & r & Hr & Hx)%mat_at_lookup
         (_ & _ & r' & Hr' & Hy)%mat_at_lookup.
  simpl in Hr, Hr'. assert (r' = r) as -> by congruence.
  destruct (Z.to_nat i) as [|[|n]]; simpl in Hr; simplify_eq;
    destruct (Z.to_nat j) as [|[|n]], (Z.to_nat j') as [|[|n']];
    simpl in *; rewrite ?lookup_nil in *; congruence.
Qed.

(** The samples of the energy field of [image23] are not below zero. *)
Lemma computeEnergy_not_negative_witness :
  computeEnergy Z.add Z.abs cvtColor_model Sobel_model image23 = Ok energy23 ∧
  mat_at energy23 0 2 = Ok 252000 ∧
  (252000 <? 0) = false.
Proof.
  split; [by vm_compute|]. split; [by vm_compute|].
  apply (computeEnergy_not_negative Z.add Z.ltb Z.abs cvtColor_model
           Sobel_model 0 Z_abs_not_negative Z_add_not_negative image23
           energy23 0 2); by vm_compute.
Defined.

(** The energy field of [image23], sample by sample. *)
Lemma computeEnergy_samples_witness :
  shape image23 2 3 ∧
  ∃ gray grad_x grad_y energy,
    cvtColor_model image23 = Ok gray ∧
    Sobel_model gray 1 0 = Ok grad_x ∧ Sobel_model gray 0 1 = Ok grad_y ∧
    computeEnergy Z.add Z.abs cvtColor_model Sobel_model image23
      = Ok energy ∧
    shape energy 2 3 ∧
    ∀ i j, 0 ≤ i < 2 → 0 ≤ j < 3 →
      ∃ x y, mat_at grad_x i j = Ok x ∧ mat_at grad_y i j = Ok y ∧
             mat_at energy i j = Ok (Z.abs x + Z.abs y).
Proof.
  split; [compute_done|].
  apply (computeEnergy_samples Z.add Z.abs cvtColor_model Sobel_model
           cvtColor_model_shape Sobel_model_shape image23 2 3);
    [compute_done|lia|lia].
Defined.

(** The cost table of the 3×3 field holds the smallest path energies. *)
Lemma cost_table_minimal_witness :
  shape field3 3 3 ∧
  ∃ cost back,
    dp_table Z.add Z.ltb no_junk_int field3 = Ok (cost, back) ∧
    ∀ i j, 0 ≤ i < 3 → 0 ≤ j < 3 →
      ∃ c, mat_at cost i j = Ok c ∧
        (∃ p, vertical_path (i + 1) 3 p ∧ vec_at p i = Ok j ∧
              path_energy Z.add field3 p (Z.to_nat i) = Ok c) ∧
        (∀ p s, vertical_path (i + 1) 3 p → vec_at p i = Ok j →
                path_energy Z.add field3 p (Z.to_nat i) = Ok s →
                (s <? c) = false).
Proof.
  split; [compute_done|].
  apply (cost_table_minimal Z.add Z.ltb no_junk_int
           Z_ltb_asym Z_ltb_negtrans Z_add_mono field3 3 3);
    [compute_done|lia|lia].
Defined.

(** The recurrence of the tables of the 3×3 field. *)
Lemma dp_table_recurrence_witness :
  shape field3 3 3 ∧
  ∃ cost back,
    dp_table Z.add Z.ltb no_junk_int field3 = Ok (cost, back) ∧
    shape cost 3 3 ∧ shape back 3 3 ∧
    (∀ j, mat_at cost 0 j = mat_at field3 0 j) ∧
    ∀ i j, 1 ≤ i < 3 → 0 ≤ j < 3 →
      ∃ e m off,
        mat_at field3 i j = Ok e ∧ mat_at back i j = Ok off ∧
        -1 ≤ off ≤ 1 ∧ mat_at cost (i - 1) (j + off) = Ok m ∧
        is_min Z.ltb cost i j m ∧ mat_at cost i j = Ok (e + m).
Proof.
  split; [compute_done|].
  apply (dp_table_recurrence Z.add Z.ltb no_junk_int
           Z_ltb_asym Z_ltb_negtrans field3 3 3);
    [compute_done|lia|lia].
Defined.

(** The seam of the one-row field [3, 1, 1]. *)
Lemma findSeam_one_row_witness :
  shape row311 1 3 ∧ mat_ptr row311 0 = Ok [3; 1; 1] ∧
  ∃ j m,
    findSeam Z.add Z.ltb no_junk_int row311 = Ok [j] ∧
    vec_at [3; 1; 1] j = Ok m ∧
    (∀ k y, vec_at [3; 1; 1] k = Ok y → (y <? m) = false) ∧
    (∀ k y, k < j → vec_at [3; 1; 1] k = Ok y → (m <? y) = true).
Proof.
  split; [compute_done|]. split; [by vm_compute|].
  apply (findSeam_one_row Z.add Z.ltb no_junk_int
           Z_ltb_asym Z_ltb_negtrans row311 3 [3; 1; 1]);
    [compute_done|lia|by vm_compute].
Defined.

(** The seam of a field of two constant rows. *)
Lemma findSeam_constant_rows_witness :
  shape rows57 2 2 ∧
  findSeam Z.add Z.ltb no_junk_int rows57 = Ok (replicate (Z.to_nat 2) 0).
Proof.
  split; [compute_done|].
  apply (findSeam_constant_rows Z.add Z.ltb no_junk_int Z_ltb_asym
           rows57 2 2); [compute_done|lia|lia|apply rows57_constant].
Defined.



(** The seam [0, 2] put back into the rows of [image23]. *)
Lemma removeSeam_reinsert_witness :
  shape image23 2 3 ∧
  ∃ out,
    removeSeam no_junk_px image23 [0; 2] = Ok out ∧
    ∀ i s row, 0 ≤ i < 2 → vec_at [0; 2] i = Ok s →
      mat_ptr image23 i = Ok row →
      ∃ orow px,
        mat_ptr out i = Ok orow ∧ vec_at row s = Ok px ∧
        take (Z.to_nat s) orow ++ px :: drop (Z.to_nat s) orow = row.
Proof.
  split; [compute_done|].
  apply (removeSeam_reinsert no_junk_px image23 [0; 2] 2 3);
    [compute_done|lia|apply seam02_defined].
Defined.

(** [removeSeam] on [image23], from a black and from a white matrix. *)
Lemma removeSeam_overwrites_witness :
  shape image23 2 3 ∧
  removeSeam no_junk_px image23 [0; 2]
    = removeSeam (fun _ _ => white) image23 [0; 2].
Proof.
  split; [compute_done|].
  apply (removeSeam_overwrites no_junk_px (fun _ _ => white) image23
           [0; 2] 2 3); [compute_done|lia|apply seam02_defined].
Defined.

(** Two seams removed from [image23]. *)
Lemma seamCarving_rows_sublists_witness :
  shape image23 2 3 ∧
  ∃ out,
    seamCarving Z.add Z.ltb Z.abs cvtColor_model Sobel_model
      no_junk_int no_junk_px image23 2 = ([], Ok out) ∧
    Forall2 sublist (data out) (data image23).
Proof.
  split; [compute_done|].
  apply (seamCarving_rows_sublists Z.add Z.ltb Z.abs cvtColor_model
           Sobel_model no_junk_int no_junk_px cvtColor_model_shape
           Sobel_model_shape image23 2 2 3); [compute_done|lia|lia].
Defined.

(** Two seams removed from [image23], with other contents of the fresh
    matrices. *)
Lemma seamCarving_initialised_witness :
  shape image23 2 3 ∧
  seamCarving Z.add Z.ltb Z.abs cvtColor_model Sobel_model
    no_junk_int no_junk_px image23 2
  = seamCarving Z.add Z.ltb Z.abs cvtColor_model Sobel_model
      (fun _ _ => 7) (fun _ _ => white) image23 2.
Proof.
  split; [compute_done|].
  apply (seamCarving_initialised Z.add Z.ltb Z.abs cvtColor_model
           Sobel_model no_junk_int no_junk_px cvtColor_model_shape
           Sobel_model_shape (fun _ _ => 7) (fun _ _ => white) image23
           2 2 3); [compute_done|lia|lia].
Defined.

(** Two seams removed from [image23], one after the other. *)
Lemma seamCarving_compose_witness :
  shape image23 2 3 ∧
  ∃ mid,
    seamCarving Z.add Z.ltb Z.abs cvtColor_model Sobel_model
      no_junk_int no_junk_px image23 1 = ([], Ok mid) ∧
    seamCarving Z.add Z.ltb Z.abs cvtColor_model Sobel_model
      no_junk_int no_junk_px image23 (1 + 1)
    = seamCarving Z.add Z.ltb Z.abs cvtColor_model Sobel_model
        no_junk_int no_junk_px mid 1.
Proof.
  split; [compute_done|].
  apply (seamCarving_compose Z.add Z.ltb Z.abs cvtColor_model Sobel_model
           no_junk_int no_junk_px cvtColor_model_shape Sobel_model_shape
           image23 1 1 2 3); [compute_done|lia..].
Defined.

(** The exit code of [main] on "in.png", one seam and "out/a.png". *)
Lemma main_exit_code_witness :
  shape (imread_model (str "in.png")) 2 3 ∧
  ((main Z.add Z.ltb Z.abs cvtColor_model Sobel_model no_junk_int no_junk_px
     imread_model create_directories_model imwrite_model
     (str "in.png") 1 (str "out/a.png")).2 = Ok 0 ↔
   1 ≤ 2 ∧ 1 ≤ 3 ∧
   (∃ made,
      create_directories_model (output_path (output_name (str "out/a.png")))
        = Ok made) ∧
   ∃ resized,
     (seamCarving Z.add Z.ltb Z.abs cvtColor_model Sobel_model
        no_junk_int no_junk_px (imread_model (str "in.png")) 1).2
       = Ok resized ∧
     imwrite_model (output_name (str "out/a.png")) resized = Ok true).
Proof.
  split; [compute_done|].
  apply (main_exit_code Z.add Z.ltb Z.abs cvtColor_model Sobel_model
           no_junk_int no_junk_px imread_model create_directories_model
           imwrite_model cvtColor_model_shape Sobel_model_shape
           (str "in.png") 1 (str "out/a.png") 2 3).
  compute_done.
Defined.

(** The run of [main] on "in.png", one seam and "out/a.png" does not print
    that the result is empty. *)
Lemma main_never_resized_empty_witness :
  shape (imread_model (str "in.png")) 2 3 ∧
  ResizedEmpty ∉
    (main Z.add Z.ltb Z.abs cvtColor_model Sobel_model no_junk_int no_junk_px
       imread_model create_directories_model imwrite_model
       (str "in.png") 1 (str "out/a.png")).1.
Proof.
  split; [compute_done|].
  apply (main_never_resized_empty Z.add Z.ltb Z.abs cvtColor_model
           Sobel_model no_junk_int no_junk_px imread_model
           create_directories_model imwrite_model cvtColor_model_shape
           Sobel_model_shape (str "in.png") 1 (str "out/a.png") 2 3).
  compute_done.
Defined.

(** The run of [main] on "in.png", one seam and "out/a.png". *)
Lemma main_success_run_witness :
  shape (imread_model (str "in.png")) 2 3 ∧
  (main Z.add Z.ltb Z.abs cvtColor_model Sobel_model no_junk_int no_junk_px
     imread_model create_directories_model imwrite_model
     (str "in.png") 1 (str "out/a.png")).2 = Ok 0 ∧
  ∃ resized W',
    (seamCarving Z.add Z.ltb Z.abs cvtColor_model Sobel_model
       no_junk_int no_junk_px (imread_model (str "in.png")) 1).2
      = Ok resized ∧
    shape resized 2 W' ∧
    W' = (if decide (0 ≤ 1 < 3) then 3 - 1 else 3) ∧
    (main Z.add Z.ltb Z.abs cvtColor_model Sobel_model no_junk_int no_junk_px
       imread_model create_directories_model imwrite_model
       (str "in.png") 1 (str "out/a.png")).1 =
      [PromptInput; OriginalSize 3 2; PromptSeams] ++
      (SeamCarvingSays <$>
         if decide (1 >= 3) then [ExceedsWidth 1 3] else []) ++
      [ResizedSize W' 2; PromptOutput;
       CreateDirectories (output_path (output_name (str "out/a.png")));
       ImWrite (output_name (str "out/a.png")) resized;
       Completed (output_name (str "out/a.png"))].
Proof.
  split; [compute_done|]. split; [by vm_compute|].
  apply (main_success_run Z.add Z.ltb Z.abs cvtColor_model Sobel_model
           no_junk_int no_junk_px imread_model create_directories_model
           imwrite_model cvtColor_model_shape Sobel_model_shape
           (str "in.png") 1 (str "out/a.png") 2 3);
    [compute_done|by vm_compute].
Defined.

(** The run of [main] on "in.png", five seams and an empty line. *)
Lemma main_saves_input_unchanged_witness :
  shape (imread_model (str "in.png")) 2 3 ∧
  create_directories_model (output_path (output_name [])) = Ok true ∧
  imwrite_model (output_name []) (imread_model (str "in.png")) = Ok true ∧
  main Z.add Z.ltb Z.abs cvtColor_model Sobel_model no_junk_int no_junk_px
    imread_model create_directories_model imwrite_model (str "in.png") 5 [] =
    ([PromptInput; OriginalSize 3 2; PromptSeams] ++
     (if decide (5 >= 3) then [SeamCarvingSays (ExceedsWidth 5 3)] else []) ++
     [ResizedSize 3 2; PromptOutput;
      CreateDirectories (output_path (output_name []));
      ImWrite (output_name []) (imread_model (str "in.png"));
      Completed (output_name [])], Ok 0).
Proof.
  split; [compute_done|]. split; [done|]. split; [by vm_compute|].
  apply (main_saves_input_unchanged Z.add Z.ltb Z.abs cvtColor_model
           Sobel_model no_junk_int no_junk_px imread_model
           create_directories_model imwrite_model cvtColor_model_shape
           Sobel_model_shape (str "in.png") 5 [] 2 3 true);
    [compute_done|lia|lia|left; lia|done|by vm_compute].
Defined.
